(** * featherlog: the query-algebra compiler, embedded and verified

    A shallow embedding of [src/featherlog/__init__.py]: the term model
    ([Var], constants), [Relation], the [Query] algebra [Single]/[And]/[Or]
    with its two methods [cols] and [sql], and the rule operator [__le__].

    Python exceptions are values of [exn] carried by the [result] monad.
    Python sets are [gset Var]; the order in which CPython iterates a set
    object is unspecified and belongs to the object, not to its value, so
    [SetOrder] supplies an arbitrary enumeration for each object iterated.
    Python dicts keep insertion order and are association lists. *)

From Stdlib Require Import ZArith String Ascii List.
From Stdlib Require DecimalString DecimalNat.
From stdpp Require Import base option list gmap sets strings sorting.

Open Scope string_scope.
Open Scope nat_scope.

(** ** Exceptions *)

Inductive exn : Type :=
| AssertionError (msg : string)
| IndexError
| KeyError
| ValueError
| AttributeError.

Inductive result (A : Type) : Type :=
| Ok (a : A)
| Raise (e : exn).
Arguments Ok {A} a.
Arguments Raise {A} e.

#[global] Instance result_ret : MRet result := λ A a, Ok a.
#[global] Instance result_bind : MBind result := λ A B k m,
  match m with
  | Ok a => k a
  | Raise e => Raise e
  end.

(** [assert cond, msg], with assertions enabled as the interpreter has
    them by default. *)
Definition py_assert (cond : bool) (msg : string) : result unit :=
  if cond then Ok tt else Raise (AssertionError msg).

(** [l[i]] on a list *)
Definition py_index {A : Type} (l : list A) (i : nat) : result A :=
  match l !! i with
  | Some a => Ok a
  | None => Raise IndexError
  end.

(** ** Terms *)

Module Var.
Record t : Type := mk { name : string }.
End Var.
Abbreviation Var := Var.t.

#[global] Instance Var_eq_dec : EqDecision Var.
Proof. solve_decision. Defined.

#[global] Instance Var_countable : Countable Var :=
  inj_countable' Var.name Var.mk (λ v, match v with Var.mk _ => eq_refl end).

(** Constants are the plain Python data a caller binds to a placeholder. *)
Inductive Const : Type :=
| CInt (n : Z)
| CStr (s : string)
| CNone.

#[global] Instance Const_eq_dec : EqDecision Const.
Proof. solve_decision. Defined.

(** One positional argument of a relation invocation. *)
Inductive Arg : Type :=
| AVar (v : Var)
| AConst (c : Const).

#[global] Instance Arg_eq_dec : EqDecision Arg.
Proof. solve_decision. Defined.

(** [isinstance(a, Var)] *)
Definition is_var (a : Arg) : bool :=
  match a with AVar _ => true | AConst _ => false end.

(** [a == b]: dataclass equality on [Var] (by name); a [Var] never equals
    a constant. *)
Definition py_eq (a b : Arg) : bool := bool_decide (a = b).

(** [vars]: one variable per name. *)
Definition vars (names : list string) : list Var := map Var.mk names.

Definition nl : string := String (ascii_of_nat 10) EmptyString.

(** [sep.join(l)] *)
Definition join (sep : string) (l : list string) : string := String.concat sep l.

(** A comprehension with a filter whose element expression may raise:
    [f] answers [None] for a skipped element. *)
Fixpoint comprehension {A B : Type} (f : A → result (option B)) (l : list A)
    : result (list B) :=
  match l with
  | [] => mret []
  | a :: l' =>
      o ← f a;
      bs ← comprehension f l';
      mret (match o with Some b => b :: bs | None => bs end)
  end.

(** [enumerate(l)] *)
Definition enumerate {A : Type} (l : list A) : list (nat * A) :=
  zip (seq 0 (length l)) l.

(** [min(g)] over the items of a generator: [ValueError] when it is empty. *)
Definition py_min (l : list nat) : result nat :=
  match l with
  | [] => Raise ValueError
  | n :: l' => Ok (foldl Nat.min n l')
  end.

(** ** Insertion-ordered dictionaries *)

Section dict.
Context {K V : Type} `{EqDecision K}.

(** [d[k] = v]: an existing key keeps its place, a new one goes last. *)
Fixpoint dict_set (d : list (K * V)) (k : K) (v : V) : list (K * V) :=
  match d with
  | [] => [(k, v)]
  | (k', v') :: d' =>
      if decide (k = k') then (k', v) :: d' else (k', v') :: dict_set d' k v
  end.

Fixpoint dict_lookup (d : list (K * V)) (k : K) : option V :=
  match d with
  | [] => None
  | (k', v') :: d' => if decide (k = k') then Some v' else dict_lookup d' k
  end.

(** [d[k]] *)
Definition dict_get (d : list (K * V)) (k : K) : result V :=
  match dict_lookup d k with
  | Some v => Ok v
  | None => Raise KeyError
  end.

End dict.

(** ** Relations, plans, queries *)

Module Relation.
Record t : Type := mk {
  name : string;
  args : list (string * string);
  distinct : bool
}.
End Relation.
Abbreviation Relation := Relation.t.

Module Sql.
Record t : Type := mk {
  code : string;
  args : list Const
}.
End Sql.
Abbreviation Sql := Sql.t.

Inductive Query : Type :=
| Single (rel : Relation) (values : list Arg)
| And (left right : Query)
| Or (left right : Query).

(** [Relation.__call__]: the arity is asserted, then named arguments fill
    the columns the positional ones left open. *)
Definition Relation_call (self : Relation) (args : list Arg)
    (kwargs : gmap string Arg) : result Query :=
  _ ← py_assert
        (bool_decide (length args + size kwargs = length (Relation.args self)))
        "Wrong number of arguments";
  rest ← mapM (λ kv : string * string,
                 match kwargs !! kv.1 with
                 | Some a => Ok a
                 | None => Raise KeyError
                 end)
              (drop (length args) (Relation.args self));
  mret (Single self (args ++ rest)).

(** ** [Single] *)

Definition var_of (a : Arg) : option Var :=
  match a with AVar v => Some v | AConst _ => None end.

Definition const_of (a : Arg) : option Const :=
  match a with AVar _ => None | AConst c => Some c end.

(** [Single.cols] *)
Definition Single_cols (values : list Arg) : gset Var :=
  list_to_set (omap var_of values).

(** [(j for j, b in enumerate(values) if a == b)] *)
Definition occurrences (a : Arg) (values : list Arg) : list nat :=
  omap (λ jb : nat * Arg, if py_eq a jb.2 then Some jb.1 else None)
       (enumerate values).

(** The dict comprehension [min_arg], one [todo] item after the other. *)
Fixpoint min_arg_loop (values todo : list Arg) (d : list (Var * nat))
    : result (list (Var * nat)) :=
  match todo with
  | [] => mret d
  | AVar v :: todo' =>
      m ← py_min (occurrences (AVar v) values);
      min_arg_loop values todo' (dict_set d v m)
  | AConst _ :: todo' => min_arg_loop values todo' d
  end.

Definition min_arg (values : list Arg) : result (list (Var * nat)) :=
  min_arg_loop values values [].

(** One item of the first comprehension [wheres]: the filter
    [isinstance(a, Var) and min_arg[a] != i], then the condition. *)
Definition Single_var_where (col_names : list string) (d : list (Var * nat))
    (ia : nat * Arg) : result (option string) :=
  match ia.2 with
  | AVar a =>
      m ← dict_get d a;
      if bool_decide (m ≠ ia.1) then
        ci ← py_index col_names ia.1;
        cm ← py_index col_names m;
        mret (Some (ci ++ " = " ++ cm))
      else mret None
  | AConst _ => mret None
  end.

Definition Single_var_wheres (col_names : list string) (values : list Arg)
    (d : list (Var * nat)) : result (list string) :=
  comprehension (Single_var_where col_names d) (enumerate values).

(** [value_args] *)
Definition value_args (values : list Arg) : list Const := omap const_of values.

(** The conditions appended for the constants:
    [col_names[i] = ?] for [i] in [range(len(value_args))]. *)
Definition Single_const_wheres (col_names : list string) (values : list Arg)
    : result (list string) :=
  mapM (λ i, c ← py_index col_names i; mret (c ++ " = ?"))
       (seq 0 (length (value_args values))).

Definition where_text (wheres : list string) : string :=
  "WHERE " ++
  (if bool_decide (0 < length wheres) then join " AND " wheres else "true").

Definition Single_selects (col_names : list string) (d : list (Var * nat))
    : result string :=
  if bool_decide (0 < length d) then
    cs ← mapM (λ aj : Var * nat,
                 c ← py_index col_names aj.2;
                 mret (c ++ " AS " ++ Var.name aj.1)) d;
    mret (join ", " cs)
  else mret "NULL".

(** [col_names = [k for k, _ in self.rel.args]] *)
Definition col_names (rel : Relation) : list string :=
  map fst (Relation.args rel).

(** [Single.sql] *)
Definition Single_sql (rel : Relation) (values : list Arg) : result Sql :=
  let col_names := col_names rel in
  d ← min_arg values;
  wheres ← Single_var_wheres col_names values d;
  let value_args := value_args values in
  cwheres ← Single_const_wheres col_names values;
  let wheres := where_text (wheres ++ cwheres) in
  selects ← Single_selects col_names d;
  mret (Sql.mk ("SELECT " ++ selects ++ nl ++ "FROM " ++ Relation.name rel
                 ++ nl ++ wheres)
               value_args).

(** ** Output variables *)

Fixpoint cols (q : Query) : gset Var :=
  match q with
  | Single _ values => Single_cols values
  | And l r => cols l ∪ cols r
  | Or l r => cols l ∩ cols r
  end.

(** The set objects the compiler iterates: the cached [cols] of a node,
    and the intersection [left_cols & right_cols] that [And.sql] builds for
    its join condition. Two objects with the same elements need not be
    iterated in the same order. *)
Inductive set_object : Type :=
| cols_of (q : Query)
| shared_of (l r : Query).

Definition set_value (o : set_object) : gset Var :=
  match o with
  | cols_of q => cols q
  | shared_of l r => cols l ∩ cols r
  end.

(** The order in which each set object is iterated: some enumeration of
    its elements, each once. *)
Class SetOrder : Type := {
  set_iter : set_object → list Var;
  set_iter_perm : ∀ o, set_iter o ≡ₚ elements (set_value o)
}.

#[global] Instance elements_order : SetOrder :=
  {| set_iter := λ o, elements (set_value o);
     set_iter_perm := λ o, reflexivity (elements (set_value o)) |}.

Section compile.
Context {order : SetOrder}.

(** ** [And] *)

Definition join_cond (c : Var) : string :=
  "_t1." ++ Var.name c ++ " = _t2." ++ Var.name c.

Definition left_select (c : Var) : string :=
  "_t1." ++ Var.name c ++ " AS " ++ Var.name c.

Definition right_select (c : Var) : string :=
  "_t2." ++ Var.name c ++ " AS " ++ Var.name c.

Definition And_on_conds (l r : Query) : list string :=
  map join_cond (set_iter (shared_of l r)).

Definition And_on_clause (l r : Query) : string :=
  let on_clause := join " AND " (And_on_conds l r) in
  if bool_decide (on_clause ≠ "") then nl ++ "WHERE " ++ on_clause
  else on_clause.

Definition And_selects (l r : Query) : list string :=
  let left_cols := cols l in
  map left_select (set_iter (cols_of l))
  ++ map right_select (filter (λ c, c ∉ left_cols) (set_iter (cols_of r))).

Definition And_sql (l r : Query) (left_sql right_sql : Sql) : Sql :=
  Sql.mk ("SELECT " ++ join ", " (And_selects l r) ++ nl
           ++ "FROM (" ++ Sql.code left_sql ++ ") AS _t1," ++ nl
           ++ "(" ++ Sql.code right_sql ++ ") AS _t2"
           ++ And_on_clause l r)
         (Sql.args left_sql ++ Sql.args right_sql).

(** ** [Or] *)

Definition Or_names (self : Query) : string :=
  join ", " (map Var.name (set_iter (cols_of self))).

Definition Or_sql (self : Query) (left_sql right_sql : Sql) : Sql :=
  let names := Or_names self in
  let left_sql_code := "SELECT " ++ names ++ " FROM (" ++ Sql.code left_sql ++ ")" in
  let right_sql_code := "SELECT " ++ names ++ " FROM (" ++ Sql.code right_sql ++ ")" in
  Sql.mk ("SELECT " ++ names ++ nl ++ "FROM (" ++ left_sql_code ++ nl
           ++ "UNION ALL " ++ right_sql_code ++ ")")
         (Sql.args left_sql ++ Sql.args right_sql).

(** ** The compiled plan of a query *)

Fixpoint sql (q : Query) : result Sql :=
  match q with
  | Single rel values => Single_sql rel values
  | And l r =>
      left_sql ← sql l;
      right_sql ← sql r;
      mret (And_sql l r left_sql right_sql)
  | Or l r =>
      left_sql ← sql l;
      right_sql ← sql r;
      mret (Or_sql (Or l r) left_sql right_sql)
  end.

(** ** Rules: [Single.__le__] *)

Definition head_unbound_msg (v : Var) : string :=
  "Variable " ++ Var.name v ++ " in head but not in body".

(** [assert v in body.cols, f"Variable {v.name} in head but not in body"].
    A constant has no [name]; the first assertion of [__le__] keeps
    constants from reaching this point. *)
Definition check_bound (body_cols : gset Var) (a : Arg) : result unit :=
  match a with
  | AVar v => py_assert (bool_decide (v ∈ body_cols)) (head_unbound_msg v)
  | AConst _ => Raise AttributeError
  end.

(** [a.name] *)
Definition arg_name (a : Arg) : result string :=
  match a with
  | AVar v => Ok (Var.name v)
  | AConst _ => Raise AttributeError
  end.

(** [Single.__le__] *)
Definition Single_le (rel : Relation) (values : list Arg) (body : Query)
    : result Sql :=
  _ ← py_assert (forallb is_var values)
        "All values of a query head must be variables";
  _ ← mapM (check_bound (cols body)) values;
  selects ← mapM arg_name values;
  body_sql ← sql body;
  let code := "INSERT INTO " ++ Relation.name rel ++ nl
              ++ "SELECT " ++ join "," selects ++ nl
              ++ "FROM (" ++ Sql.code body_sql ++ ") WHERE true" in
  let code := if Relation.distinct rel then code ++ " ON CONFLICT DO NOTHING"
              else code in
  mret (Sql.mk code (Sql.args body_sql)).

End compile.

(** ** Schema helpers: [make_args], [Cursor.Relation], [Relation.insert_sql] *)

(** [f"{i}"] for an index: its decimal digits. *)
Definition py_str_nat (i : nat) : string :=
  DecimalString.NilEmpty.string_of_uint (Nat.to_uint i).

(** [make_args(args, kwargs)]: positional column types get the names
    [_x0], [_x1], ...; the named ones follow in the order of the dict
    [kwargs], given here by its items. *)
Definition make_args (args : list string) (kwargs : list (string * string))
    : list (string * string) :=
  map (λ ia : nat * string, ("_x" ++ py_str_nat ia.1, ia.2)) (enumerate args)
  ++ kwargs.

(** The handle [Cursor.Relation] returns; the statement it has the engine
    run is outside the embedding. *)
Definition Cursor_Relation (name : string) (args : list string)
    (kwargs : list (string * string)) : Relation :=
  Relation.mk name (make_args args kwargs) false.

(** The handle [Cursor.RelationSet] returns. *)
Definition Cursor_RelationSet (name : string) (args : list string)
    (kwargs : list (string * string)) : Relation :=
  Relation.mk name (make_args args kwargs) true.

(** [Relation.insert_sql] *)
Definition insert_sql (self : Relation) : string :=
  let placeholders := join ", " (map (λ _, "?") (Relation.args self)) in
  let code := "INSERT INTO " ++ Relation.name self ++ " VALUES ("
              ++ placeholders ++ ")" in
  if Relation.distinct self then code ++ " ON CONFLICT DO NOTHING" else code.

Section cursor.
Context {order : SetOrder}.

(** [Cursor.select]: the text and the parameters it hands to the engine's
    [execute]; the engine itself is outside the embedding. *)
Definition Cursor_select (vars : list Var) (stmt : Query) : result Sql :=
  sql ← sql stmt;
  let code := "SELECT " ++ join "," (map Var.name vars) ++ nl
              ++ "FROM (" ++ Sql.code sql ++ ")" in
  mret (Sql.mk code (Sql.args sql)).

End cursor.

(** * Specification vocabulary *)

(** The spec's [minArg(a)]: the smallest index [j] with [values[j] == a]. *)
Definition minArg (values : list Arg) (a : Var) : option nat :=
  fst <$> list_find (AVar a =.) values.

(** [enumerate] started at [k], as the loops below see a suffix of a list. *)
Definition enumerate_from {A : Type} (k : nat) (l : list A) : list (nat * A) :=
  zip (seq k (length l)) l.

Definition occurrences_from (k : nat) (a : Arg) (l : list Arg) : list nat :=
  omap (λ jb : nat * Arg, if py_eq a jb.2 then Some jb.1 else None)
       (enumerate_from k l).

Definition first_index (values : list Arg) (v : Var) : nat :=
  default 0 (minArg values v).

Definition min_arg_step (values : list Arg) (d : list (Var * nat)) (v : Var)
    : list (Var * nat) :=
  dict_set d v (first_index values v).

(** A position repeats its variable when the variable's first occurrence
    is elsewhere. *)
Definition is_repeat (values : list Arg) (i : nat) : bool :=
  match values !! i with
  | Some (AVar a) => bool_decide (minArg values a ≠ Some i)
  | _ => false
  end.

Definition unify_positions (values : list Arg) : list nat :=
  filter (λ i, is_repeat values i) (seq 0 (length values)).

(** [w] is the condition [column[i] = column[minArg(a)]] of position [i]. *)
Definition unify_cond (col_names : list string) (values : list Arg)
    (i : nat) (w : string) : Prop :=
  ∃ a m ci cm,
    values !! i = Some (AVar a) ∧ minArg values a = Some m ∧ i ≠ m ∧
    col_names !! i = Some ci ∧ col_names !! m = Some cm ∧
    w = ci ++ " = " ++ cm.

(** [w] is the projection [column[j] AS a] of the dictionary item [(a, j)]. *)
Definition select_item (col_names : list string) (aj : Var * nat) (w : string)
    : Prop :=
  ∃ cj, col_names !! aj.2 = Some cj ∧ w = cj ++ " AS " ++ Var.name aj.1.

(** Every [Single] built by [Relation.__call__] has one value per column. *)
Fixpoint wf_query (q : Query) : Prop :=
  match q with
  | Single rel values => length values = length (Relation.args rel)
  | And l r => wf_query l ∧ wf_query r
  | Or l r => wf_query l ∧ wf_query r
  end.

(** The constants among the arguments of an atom, from the first
    position to the last. *)
Fixpoint arg_constants (values : list Arg) : list Const :=
  match values with
  | [] => []
  | AVar _ :: values' => arg_constants values'
  | AConst c :: values' => c :: arg_constants values'
  end.

(** The constant arguments of a tree, left to right, depth first. *)
Fixpoint constants (q : Query) : list Const :=
  match q with
  | Single _ values => arg_constants values
  | And l r => constants l ++ constants r
  | Or l r => constants l ++ constants r
  end.

(** The distinct elements of a list, in the order of their first
    occurrence. *)
Fixpoint first_occurrences (vs : list Var) : list Var :=
  match vs with
  | [] => []
  | v :: vs' => v :: filter (λ w, w ≠ v) (first_occurrences vs')
  end.

(** A variable paired with its first position. *)
Definition with_first_index (values : list Arg) (v : Var) : Var * nat :=
  (v, first_index values v).

(** The relation has a column for each position that [Single.sql] reads:
    every position holding a variable, and as many leading positions as
    there are constants. *)
Definition fits (rel : Relation) (values : list Arg) : Prop :=
  (∀ i a, values !! i = Some (AVar a) → i < length (Relation.args rel)) ∧
  length (value_args values) ≤ length (Relation.args rel).

(** Every [Single] of the tree has a relation that [fits] it. *)
Fixpoint fits_query (q : Query) : Prop :=
  match q with
  | Single rel values => fits rel values
  | And l r => fits_query l ∧ fits_query r
  | Or l r => fits_query l ∧ fits_query r
  end.

(** The projection item [And.sql] emits for an output variable: from the
    left plan when the left child has the variable, else from the right. *)
Definition And_select_of (left_cols : gset Var) (v : Var) : string :=
  if decide (v ∈ left_cols)
  then "_t1." ++ Var.name v ++ " AS " ++ Var.name v
  else "_t2." ++ Var.name v ++ " AS " ++ Var.name v.

(** [kwargs[k]] for one column [(k, _)] left open by the positional
    arguments, as in [Relation.__call__]. *)
Definition kwarg_for (kwargs : gmap string Arg) (kv : string * string)
    : result Arg :=
  match kwargs !! kv.1 with
  | Some u => Ok u
  | None => Raise KeyError
  end.

(** The name [make_args] gives the positional column of index [i]. *)
Definition positional_name (i : nat) : string := "_x" ++ py_str_nat i.

(** Queries built through the public constructors: [Relation.__call__]
    for the leaves, [Query.__and__] and [Query.__or__] above them. *)
Inductive built : Query → Prop :=
| built_call self args kwargs q :
    Relation_call self args kwargs = Ok q → built q
| built_and l r : built l → built r → built (And l r)
| built_or l r : built l → built r → built (Or l r).

(** Occurrences of a character in a text. *)
Fixpoint count_char (c : ascii) (s : string) : nat :=
  match s with
  | EmptyString => 0
  | String c' s' => (if decide (c = c') then 1 else 0) + count_char c s'
  end.

(** A text that holds no placeholder of its own. *)
Definition no_placeholder (s : string) : Prop := count_char "?" s = 0.

(** The identifiers a query is built from hold no question mark: the
    names of its relations, of their columns and of its variables. *)
Definition clean_relation (rel : Relation) : Prop :=
  no_placeholder (Relation.name rel) ∧ Forall no_placeholder (col_names rel).

Definition clean_arg (b : Arg) : Prop :=
  match b with
  | AVar v => no_placeholder (Var.name v)
  | AConst _ => True
  end.

Fixpoint clean_query (q : Query) : Prop :=
  match q with
  | Single rel values => clean_relation rel ∧ Forall clean_arg values
  | And l r => clean_query l ∧ clean_query r
  | Or l r => clean_query l ∧ clean_query r
  end.

Fixpoint last_char (s : string) : option ascii :=
  match s with
  | EmptyString => None
  | String c EmptyString => Some c
  | String _ s' => last_char s'
  end.

Definition ends_with (suffix s : string) : Prop := ∃ p, s = p ++ suffix.

(** ** The relations and variables of the test suite *)

Module Examples.
Definition x : Var := Var.mk "x".
Definition y : Var := Var.mk "y".
Definition z : Var := Var.mk "z".
Definition edge : Relation :=
  Relation.mk "edge" [("x", "INT"); ("y", "INT")] false.
Definition path : Relation :=
  Relation.mk "path" [("x", "INT"); ("y", "INT")] true.
End Examples.
Import Examples.

(** * Proof automation *)

Ltac by_computation :=
  refine (bool_decide_unpack _ _); vm_compute; exact I.

(** * Properties *)

(** ** The result monad *)

Lemma bind_Ok {A B : Type} (m : result A) (k : A → result B) (b : B) :
  m ≫= k = Ok b ↔ ∃ a, m = Ok a ∧ k a = Ok b.
Proof.
  destruct m as [a|e]; simpl.
  - split; [eauto | intros (a' & [= <-] & ?); done].
  - split; [done | intros (a' & [=] & _)].
Qed.

Ltac inv_bind H :=
  repeat match type of H with
  | _ ≫= _ = Ok _ =>
      let a := fresh "a" in let Ha := fresh "Ha" in
      apply bind_Ok in H as (a & Ha & H)
  | mret _ = Ok _ => injection H as H
  | Ok _ = Ok _ => injection H as H
  end.

Lemma mapM_Ok_Forall2 {A B : Type} (f : A → result B) (l : list A) (k : list B) :
  mapM f l = Ok k ↔ Forall2 (λ a b, f a = Ok b) l k.
Proof.
  revert k; induction l as [|a l IH]; intros k; simpl.
  - split; [intros [= <-]; constructor | by inversion 1].
  - split.
    + intros H. apply bind_Ok in H as (b & Hb & H).
      apply bind_Ok in H as (bs & Hbs & [= <-]).
      constructor; [done | by apply IH].
    + inversion 1 as [|? b ? bs Hb Hbs]; subst.
      rewrite Hb. simpl. apply IH in Hbs. by rewrite Hbs.
Qed.

(** ** Dictionaries *)

Section dict_facts.
Context {K V : Type} `{EqDecision K}.
Implicit Types (d : list (K * V)) (k : K) (v : V).

Lemma dict_lookup_set d k v k' :
  dict_lookup (dict_set d k v) k' =
    if decide (k' = k) then Some v else dict_lookup d k'.
Proof.
  induction d as [|[k0 v0] d IH]; simpl.
  - by destruct (decide (k' = k)).
  - destruct (decide (k = k0)) as [->|Hne]; simpl.
    + by destruct (decide (k' = k0)).
    + rewrite IH. destruct (decide (k' = k0)) as [->|]; [|done].
      by rewrite decide_False.
Qed.

Lemma dict_set_elem_of d k v (p : K * V) :
  p ∈ dict_set d k v → p ∈ d ∨ p = (k, v).
Proof.
  induction d as [|[k0 v0] d IH]; simpl.
  - intros ->%list_elem_of_singleton. by right.
  - destruct (decide (k = k0)) as [->|Hne].
    + intros [->|?]%elem_of_cons; [by right | left; by right].
    + intros [->|Hp]%elem_of_cons; [left; by left|].
      destruct (IH Hp); [left; by right | by right].
Qed.

End dict_facts.

(** ** First occurrences *)

Lemma minArg_Some values a m :
  minArg values a = Some m ↔
  values !! m = Some (AVar a) ∧ ∀ j, j < m → values !! j ≠ Some (AVar a).
Proof.
  unfold minArg. split.
  - intros H. apply fmap_Some in H as ([i b] & Hf & ->).
    apply list_find_Some in Hf as (Hi & <- & Hmin). simpl. split; [done|].
    intros j Hj Hl. by apply (Hmin j _ Hl).
  - intros [Hm Hmin]. apply fmap_Some. exists (m, AVar a). split; [|done].
    apply list_find_Some. repeat split; [done|].
    intros j b Hj Hlt <-. by apply (Hmin j).
Qed.

Lemma minArg_is_Some values a : AVar a ∈ values → is_Some (minArg values a).
Proof.
  intros Hin. unfold minArg.
  destruct (list_find_elem_of (AVar a =.) values (AVar a) Hin eq_refl) as [p ->].
  by eexists.
Qed.

Lemma minArg_lt values a m : minArg values a = Some m → m < length values.
Proof. intros [H _]%minArg_Some. by eapply lookup_lt_Some. Qed.

Lemma foldl_min_lower_bound (n : nat) (l : list nat) :
  Forall (λ m, (n ≤ m)%nat) l → foldl Nat.min n l = n.
Proof.
  induction 1 as [|m l Hm _ IH]; simpl; [done|].
  by rewrite Nat.min_l.
Qed.

Lemma enumerate_from_cons {A : Type} k (a : A) l :
  enumerate_from k (a :: l) = (k, a) :: enumerate_from (S k) l.
Proof. done. Qed.

Lemma occurrences_from_cons k a c l :
  occurrences_from k a (c :: l) =
    if py_eq a c then k :: occurrences_from (S k) a l
    else occurrences_from (S k) a l.
Proof.
  unfold occurrences_from. rewrite enumerate_from_cons. simpl.
  by destruct (py_eq a c).
Qed.

Lemma occurrences_from_lower_bound k a l :
  Forall (λ j, (k ≤ j)%nat) (occurrences_from k a l).
Proof.
  revert k; induction l as [|b l IH]; intros k; [constructor|].
  rewrite occurrences_from_cons.
  assert (Forall (λ j, (k ≤ j)%nat) (occurrences_from (S k) a l)) as Hrest.
  { eapply Forall_impl; [apply IH|]. simpl. lia. }
  destruct (py_eq a b); [constructor; [lia|]|]; exact Hrest.
Qed.

Lemma py_min_occurrences_from k a l i b :
  list_find (a =.) l = Some (i, b) →
  py_min (occurrences_from k a l) = Ok (k + i).
Proof.
  revert k i; induction l as [|c l IH]; intros k i; [done|].
  rewrite occurrences_from_cons. simpl.
  unfold py_eq. destruct (decide (a = c)) as [Heq|Hne].
  - intros [= <- <-]. rewrite bool_decide_true by done. simpl.
    rewrite foldl_min_lower_bound; [f_equal; lia|].
    eapply Forall_impl; [apply (occurrences_from_lower_bound (S k))|].
    simpl. lia.
  - rewrite bool_decide_false by done.
    destruct (list_find (a =.) l) as [[i' b']|] eqn:Hf; [|done].
    intros [= <- <-]. rewrite (IH (S k) i' eq_refl). f_equal. lia.
Qed.

(** Python's [min] over the occurrences computes the spec's [minArg]. *)
Lemma py_min_occurrences values a m :
  minArg values a = Some m →
  py_min (occurrences (AVar a) values) = Ok m.
Proof.
  unfold minArg. intros ([i b] & Hf & ->)%fmap_Some.
  apply (py_min_occurrences_from 0) in Hf. exact Hf.
Qed.

Implicit Types (values todo : list Arg) (v a : Var) (d : list (Var * nat)).

Lemma elem_of_vars values v : v ∈ omap var_of values ↔ AVar v ∈ values.
Proof.
  rewrite list_elem_of_omap. split.
  - intros ([w|c] & Hin & [= <-]). done.
  - intros Hin. by exists (AVar v).
Qed.

(** ** The dictionary [min_arg] *)

Lemma min_arg_loop_fold values todo d :
  (∀ v, AVar v ∈ todo → AVar v ∈ values) →
  min_arg_loop values todo d =
    Ok (foldl (min_arg_step values) d (omap var_of todo)).
Proof.
  revert d; induction todo as [|[v|c] todo IH]; intros d Hsub; simpl.
  - done.
  - destruct (minArg_is_Some values v) as [m Hm]; [apply Hsub; by left|].
    rewrite (py_min_occurrences _ _ _ Hm). simpl.
    rewrite IH by (intros w Hw; apply Hsub; by right).
    unfold min_arg_step at 3, first_index. by rewrite Hm.
  - apply IH. intros w Hw; apply Hsub; by right.
Qed.

Lemma min_arg_fold_lookup values vs d a :
  dict_lookup (foldl (min_arg_step values) d vs) a =
    if decide (a ∈ vs) then Some (first_index values a) else dict_lookup d a.
Proof.
  revert d; induction vs as [|v vs IH]; intros d; simpl.
  - destruct (decide (a ∈ [])) as [Hin%elem_of_nil|]; done.
  - rewrite IH. unfold min_arg_step. rewrite dict_lookup_set.
    destruct (decide (a ∈ vs)) as [Hin|Hnin].
    + rewrite decide_True; [done | by right].
    + destruct (decide (a = v)) as [->|Hne].
      * rewrite decide_True; [done | by left].
      * rewrite decide_False; [done|].
        intros [?|?]%elem_of_cons; done.
Qed.

Lemma min_arg_fold_elem_of values vs d p :
  p ∈ foldl (min_arg_step values) d vs →
  p ∈ d ∨ ∃ v, v ∈ vs ∧ p = (v, first_index values v).
Proof.
  revert d; induction vs as [|v vs IH]; intros d; simpl; [by left|].
  intros [Hp|(w & Hw & ->)]%IH.
  - apply dict_set_elem_of in Hp as [?| ->]; [by left|].
    right. exists v. split; [by left | done].
  - right. exists w. split; [by right | done].
Qed.

(** [min_arg] never raises; it maps every variable of [values] to its
    first position, and holds nothing else. *)
Lemma min_arg_Ok values :
  ∃ d, min_arg values = Ok d
     ∧ (∀ a, AVar a ∈ values → dict_lookup d a = minArg values a)
     ∧ (∀ a j, (a, j) ∈ d → AVar a ∈ values ∧ minArg values a = Some j)
     ∧ (omap var_of values = [] → d = []).
Proof.
  eexists. split; [by apply min_arg_loop_fold|]. split; [|split].
  - intros a Ha. rewrite min_arg_fold_lookup.
    rewrite decide_True by (by apply elem_of_vars).
    unfold first_index. by destruct (minArg_is_Some values a Ha) as [m ->].
  - intros a j [Hp|(v & Hv & [= -> ->])]%min_arg_fold_elem_of.
    + by apply elem_of_nil in Hp.
    + apply elem_of_vars in Hv. split; [done|].
      unfold first_index. by destruct (minArg_is_Some values v Hv) as [m ->].
  - by intros ->.
Qed.

(** ** Unification conditions *)

Lemma py_index_lt {A : Type} (l : list A) (i : nat) :
  i < length l → ∃ x, l !! i = Some x ∧ py_index l i = Ok x.
Proof.
  intros [x Hx]%lookup_lt_is_Some. exists x. unfold py_index. by rewrite Hx.
Qed.

Lemma Single_var_where_var col_names d i a :
  Single_var_where col_names d (i, AVar a) =
    m ← dict_get d a;
    if bool_decide (m ≠ i) then
      ci ← py_index col_names i;
      cm ← py_index col_names m;
      mret (Some (ci ++ " = " ++ cm))
    else mret None.
Proof. done. Qed.

Lemma Single_var_where_const col_names d i c :
  Single_var_where col_names d (i, AConst c) = Ok None.
Proof. done. Qed.

Lemma Single_var_wheres_from col_names values d k l :
  length values ≤ length col_names →
  (∀ a, AVar a ∈ values → dict_lookup d a = minArg values a) →
  (∀ j b, l !! j = Some b → values !! (k + j) = Some b) →
  ∃ ws,
    comprehension (Single_var_where col_names d) (enumerate_from k l) = Ok ws ∧
    Forall2 (unify_cond col_names values)
            (filter (λ i, is_repeat values i) (seq k (length l))) ws.
Proof.
  intros Hlen Hd. revert k; induction l as [|b l IH]; intros k Hl.
  { exists []. split; [done | constructor]. }
  assert (values !! k = Some b) as Hk.
  { rewrite <-(Nat.add_0_r k). by apply Hl. }
  destruct (IH (S k)) as (ws & Hws & Hall).
  { intros j c Hj. replace (S k + j) with (k + S j) by lia. by apply Hl. }
  rewrite enumerate_from_cons. cbn [comprehension length seq].
  rewrite filter_cons.
  destruct b as [a|c]; cycle 1.
  { rewrite Single_var_where_const, Hws. exists ws. split; [done|].
    rewrite decide_False; [done|]. unfold is_repeat. rewrite Hk. by intros ?. }
  assert (AVar a ∈ values) as Ha by (by eapply list_elem_of_lookup_2).
  destruct (minArg_is_Some values a Ha) as [m Hm].
  rewrite Single_var_where_var.
  unfold dict_get. rewrite (Hd a Ha), Hm. cbn [mbind result_bind].
  destruct (decide (m = k)) as [->|Hne].
  - rewrite bool_decide_false by (intros ?; done).
    cbn [mbind result_bind mret result_ret].
    rewrite Hws. exists ws. split; [done|].
    rewrite decide_False; [done|]. unfold is_repeat. rewrite Hk, Hm.
    rewrite bool_decide_false; [by intros ? | by intros ?].
  - rewrite bool_decide_true by done.
    destruct (py_index_lt col_names k) as (ci & Hci & ->).
    { apply lookup_lt_Some in Hk. lia. }
    destruct (py_index_lt col_names m) as (cm & Hcm & ->).
    { apply minArg_lt in Hm. lia. }
    cbn [mbind result_bind mret result_ret]. rewrite Hws.
    exists ((ci ++ " = " ++ cm) :: ws). split; [done|].
    rewrite decide_True; cycle 1.
    { unfold is_repeat. rewrite Hk, Hm.
      rewrite bool_decide_true; [done | congruence]. }
    constructor; [|done].
    exists a, m, ci, cm. repeat split; done.
Qed.

(** ** Constant conditions and the projection *)

Lemma length_value_args values : length (value_args values) ≤ length values.
Proof.
  unfold value_args, omap.
  induction values as [|[v|c] values IH]; simpl; lia.
Qed.

Lemma mapM_index_seq {A B : Type} (l : list A) (g : A → B) (k n : nat) :
  k + n ≤ length l →
  mapM (λ i, c ← py_index l i; mret (g c)) (seq k n) =
    Ok (map g (take n (drop k l))).
Proof.
  revert k; induction n as [|n IH]; intros k Hle; simpl; [done|].
  destruct (py_index_lt l k) as (x & Hx & ->); [lia|]. simpl.
  rewrite IH by lia. simpl.
  by rewrite (drop_S l x k Hx).
Qed.

(** The conditions for the constants name the first [len(value_args)]
    columns, whatever the positions of the constants. *)
Lemma Single_const_wheres_Ok col_names values :
  length values ≤ length col_names →
  Single_const_wheres col_names values =
    Ok (map (λ c, c ++ " = ?") (take (length (value_args values)) col_names)).
Proof.
  intros Hlen. unfold Single_const_wheres.
  rewrite (mapM_index_seq col_names (λ c, c ++ " = ?") 0).
  - by rewrite drop_0.
  - pose proof (length_value_args values). lia.
Qed.

Lemma Single_selects_Ok col_names d :
  (∀ a j, (a, j) ∈ d → j < length col_names) →
  ∃ sel, Single_selects col_names d = Ok sel ∧
    if d is [] then sel = "NULL"
    else ∃ cs, Forall2 (select_item col_names) d cs ∧ sel = join ", " cs.
Proof.
  intros Hd. unfold Single_selects.
  destruct d as [|p d]; [by exists "NULL"|].
  rewrite bool_decide_true by (simpl; lia).
  assert (∃ cs, mapM (λ aj : Var * nat,
                        c ← py_index col_names aj.2;
                        mret (c ++ " AS " ++ Var.name aj.1)) (p :: d) = Ok cs
              ∧ Forall2 (select_item col_names) (p :: d) cs) as (cs & -> & Hcs).
  { induction (p :: d) as [|[a j] l IH]; [exists []; split; [done|constructor]|].
    destruct IH as (cs & Hcs & Hall).
    { intros a' j' Hin. apply (Hd a' j'). by right. }
    destruct (py_index_lt col_names j) as (cj & Hcj & Hj).
    { apply (Hd a j). by left. }
    exists ((cj ++ " AS " ++ Var.name a) :: cs). split.
    - simpl. rewrite Hj. simpl. by rewrite Hcs.
    - constructor; [by exists cj | done]. }
  simpl. eexists. split; [done|]. by exists cs.
Qed.

(** ** The plan of a [Single] *)

(** What [Single.sql] returns when the relation has a column for each
    value: it does not raise, and the text is assembled from the
    projection, the unification conditions and the constant conditions. *)
Lemma Single_sql_shape rel values :
  length values ≤ length (Relation.args rel) →
  ∃ d ws sel,
    min_arg values = Ok d ∧
    (∀ a, AVar a ∈ values → dict_lookup d a = minArg values a) ∧
    (omap var_of values = [] → d = []) ∧
    Single_var_wheres (col_names rel) values d = Ok ws ∧
    Forall2 (unify_cond (col_names rel) values) (unify_positions values) ws ∧
    Single_selects (col_names rel) d = Ok sel ∧
    (∃ cs, Forall2 (select_item (col_names rel)) d cs ∧
           sel = if d is [] then "NULL" else join ", " cs) ∧
    Single_sql rel values =
      Ok (Sql.mk
            ("SELECT " ++ sel ++ nl ++ "FROM " ++ Relation.name rel ++ nl
             ++ where_text
                  (ws ++ map (λ c, c ++ " = ?")
                             (take (length (value_args values)) (col_names rel))))
            (value_args values)).
Proof.
  intros Hlen.
  assert (length values ≤ length (col_names rel)) as Hlen'.
  { unfold col_names. by rewrite length_map. }
  destruct (min_arg_Ok values) as (d & Hd & Hlook & Hkeys & Hnil).
  destruct (Single_var_wheres_from (col_names rel) values d 0 values Hlen' Hlook)
    as (ws & Hws & Hall); [done|].
  destruct (Single_selects_Ok (col_names rel) d) as (sel & Hsel & Hshape).
  { intros a j [_ Hj%minArg_lt]%Hkeys. lia. }
  assert (∃ cs, Forall2 (select_item (col_names rel)) d cs ∧
                sel = if d is [] then "NULL" else join ", " cs) as Hcs.
  { destruct d as [|p d0]; [exists []; split; [constructor | done]|].
    destruct Hshape as (cs & Hcs & ->). by exists cs. }
  exists d, ws, sel. repeat split; try done.
  unfold Single_sql. fold (col_names rel). rewrite Hd. simpl.
  unfold Single_var_wheres, enumerate. fold (enumerate_from 0 values).
  rewrite Hws. simpl.
  rewrite (Single_const_wheres_Ok _ _ Hlen'). simpl.
  by rewrite Hsel.
Qed.

(** ** Well-formed queries *)

Lemma Relation_call_wf self args kwargs q :
  Relation_call self args kwargs = Ok q → wf_query q.
Proof.
  unfold Relation_call, py_assert. case_bool_decide as Hlen; [|done].
  simpl. intros H. apply bind_Ok in H as (rest & Hrest & [= <-]).
  apply mapM_Ok_Forall2, Forall2_length in Hrest.
  simpl. rewrite length_app, <-Hrest, length_drop. lia.
Qed.

Section compile_facts.
Context {order : SetOrder}.

Lemma sql_total q : wf_query q → ∃ s, sql q = Ok s.
Proof.
  induction q as [rel values|l IHl r IHr|l IHl r IHr]; simpl.
  - intros Hlen. destruct (Single_sql_shape rel values) as (?&?&?&?&?&?&?&?&?&?&->);
      [lia | by eexists].
  - intros [[ls ->]%IHl [rs ->]%IHr]. by eexists.
  - intros [[ls ->]%IHl [rs ->]%IHr]. by eexists.
Qed.

End compile_facts.

(** ** Constants of a query tree *)

(** [value_args] keeps the constants in the order of their positions. *)
Lemma value_args_in_order values : value_args values = arg_constants values.
Proof.
  unfold value_args, omap.
  induction values as [|[v|c] values IH]; simpl; [done|done|by rewrite IH].
Qed.

(** The text and the parameters of a [Single] plan, spelled out. *)
Lemma Single_sql_text rel values (sel : string) (ws : list string) :
  Sql.mk ("SELECT " ++ sel ++ nl ++ "FROM " ++ Relation.name rel ++ nl
          ++ where_text ws)
         (value_args values) =
  Sql.mk ("SELECT " ++ sel ++ "
FROM " ++ Relation.name rel ++ "
WHERE " ++ (if ws is [] then "true" else String.concat " AND " ws))
         (arg_constants values).
Proof.
  rewrite value_args_in_order. unfold where_text.
  destruct ws as [|w ws]; [done|].
  by rewrite bool_decide_true by (simpl; lia).
Qed.

Lemma Single_sql_args rel values s :
  Single_sql rel values = Ok s → Sql.args s = value_args values.
Proof.
  unfold Single_sql. intros H. inv_bind H. by subst s.
Qed.

Lemma filter_none {A : Type} (P : A → Prop) `{∀ x, Decision (P x)} (l : list A) :
  Forall (λ x, ¬ P x) l → filter P l = [].
Proof.
  induction 1 as [|x l Hx _ IH]; [done|].
  rewrite filter_cons, decide_False by done. exact IH.
Qed.

Lemma all_constants_no_vars values :
  Forall (λ b : Arg, is_var b = false) values →
  omap var_of values = [] ∧ unify_positions values = [] ∧
  length (value_args values) = length values.
Proof.
  intros Hall. split; [|split].
  - induction Hall as [|[v|c] l Hc _ IH]; simpl; [done|done|exact IH].
  - unfold unify_positions. apply filter_none, Forall_forall. intros i _.
    unfold is_repeat. destruct (values !! i) as [[v|c]|] eqn:Hi; [|tauto..].
    apply list_elem_of_lookup_2 in Hi.
    rewrite Forall_forall in Hall. by apply Hall in Hi.
  - unfold value_args, omap.
    induction Hall as [|[v|c] l Hc _ IH]; simpl; [done|done|by rewrite IH].
Qed.

Lemma string_length_app (s1 s2 : string) :
  String.length (s1 ++ s2) = String.length s1 + String.length s2.
Proof. induction s1 as [|c s1 IH]; simpl; [done | by rewrite IH]. Qed.

Lemma string_app_inj_length (s1 s2 t1 t2 : string) :
  String.length s1 = String.length s2 → s1 ++ t1 = s2 ++ t2 → s1 = s2.
Proof.
  revert s2; induction s1 as [|c s1 IH]; intros [|c' s2]; simpl; try done.
  intros [= Hlen] [= -> Happ]. f_equal. by apply IH.
Qed.

(** Distinct variables give distinct join conditions. *)
Lemma join_cond_inj (c1 c2 : Var) : join_cond c1 = join_cond c2 → c1 = c2.
Proof.
  destruct c1 as [n1], c2 as [n2]. unfold join_cond. simpl.
  intros [= Happ]. simpl in Happ. f_equal.
  apply (string_app_inj_length n1 n2 _ _) with (2 := Happ).
  apply (f_equal String.length) in Happ.
  rewrite !string_length_app in Happ. simpl in Happ. lia.
Qed.

Lemma NoDup_map_inj {A B : Type} (f : A → B) (l : list A) :
  (∀ x1 x2 : A, f x1 = f x2 → x1 = x2) → NoDup l → NoDup (map f l).
Proof.
  intros Hinj. induction 1 as [|x l Hx _ IH]; simpl; constructor; [|done].
  intros Hin. apply list_elem_of_In, in_map_iff in Hin as (x' & Heq & Hin).
  apply Hinj in Heq as ->. by apply Hx, list_elem_of_In.
Qed.

Lemma join_cond_not_empty sep c l : join sep (map join_cond (c :: l)) ≠ "".
Proof. simpl. by destruct (map join_cond l). Qed.

(** * The claims *)

(** C1, evaluated where it fails. For [edge(x, 5)] the constant sits at
    position 1, whose column is [y]; the plan binds [5] in left-to-right
    order as the claim says, but the condition it emits is [x = ?]: the
    running index of the constant (0) was used in place of its position. *)
Theorem Single_sql_constant_condition_names_wrong_column :
  Single_sql edge [AVar x; AConst (CInt 5)] =
    Ok (Sql.mk ("SELECT x AS x" ++ nl ++ "FROM edge" ++ nl ++ "WHERE x = ?")
               [CInt 5])
  ∧ [AVar x; AConst (CInt 5)] !! 1 = Some (AConst (CInt 5))
  ∧ col_names edge !! 1 = Some "y"
  ∧ col_names edge !! 0 = Some "x".
Proof. repeat split; reflexivity. Qed.

(** C2. The output variables of [And(L, R)] are the union of the
    children's output variables, those of [Or(L, R)] their intersection. *)
Theorem cols_And_union_Or_intersection (l r : Query) :
  cols (And l r) = cols l ∪ cols r ∧
  cols (Or l r) = cols l ∩ cols r ∧
  ∀ v, (v ∈ cols (And l r) ↔ v ∈ cols l ∨ v ∈ cols r) ∧
       (v ∈ cols (Or l r) ↔ v ∈ cols l ∧ v ∈ cols r).
Proof.
  split; [done|]. split; [done|]. intros v. simpl. split.
  - apply elem_of_union.
  - apply elem_of_intersection.
Qed.

(** C3. For a [Single] with one value per column, compilation returns a
    plan whose text is written out below. Its filter lists first the
    unification conditions [ws]: one for each position [i] of
    [unify_positions], in order, and it is [column[i] = column[minArg(a)]]
    for the variable [a] at [i]. A position is in [unify_positions] exactly
    when it holds a variable whose first occurrence [minArg(a)] is another
    position, so a first occurrence gets no condition; [minArg(a)] is the
    smallest index holding [a], and it is what the dictionary [min_arg] of
    the code stores. The remaining conditions [cws] are the placeholders of
    the constants; the filter is [true] when there is no condition at all.
    The projection has one item [column[j] AS a] for each entry [(a, j)] of
    the dictionary. *)
Theorem Single_sql_unification (rel : Relation) (values : list Arg) :
  wf_query (Single rel values) →
  ∃ d cs ws cws,
    Single_sql rel values =
      Ok (Sql.mk
            ("SELECT " ++ (if d is [] then "NULL" else String.concat ", " cs)
             ++ "
FROM " ++ Relation.name rel ++ "
WHERE " ++ (if (ws ++ cws)%list is [] then "true"
            else String.concat " AND " (ws ++ cws)))
            (arg_constants values)) ∧
    min_arg values = Ok d ∧
    (∀ a, AVar a ∈ values → dict_lookup d a = minArg values a) ∧
    (∀ a m, minArg values a = Some m ↔
       values !! m = Some (AVar a) ∧
       ∀ j, j < m → values !! j ≠ Some (AVar a)) ∧
    Single_var_wheres (col_names rel) values d = Ok ws ∧
    Forall2 (unify_cond (map fst (Relation.args rel)) values)
            (unify_positions values) ws ∧
    Forall2 (select_item (map fst (Relation.args rel))) d cs ∧
    NoDup (unify_positions values) ∧
    (∀ i, i ∈ unify_positions values ↔
       ∃ a m, values !! i = Some (AVar a) ∧ minArg values a = Some m ∧ i ≠ m) ∧
    cws = map (λ c, c ++ " = ?")
              (take (length (arg_constants values))
                    (map fst (Relation.args rel))).
Proof.
  simpl. intros Hlen.
  destruct (Single_sql_shape rel values)
    as (d & ws & sel & Hd & Hlook & _ & Hws & Hall & _ & (cs & Hcs & ->) & Hsql);
    [lia|].
  exists d, cs, ws, (map (λ c, c ++ " = ?")
                      (take (length (arg_constants values))
                            (map fst (Relation.args rel)))).
  split.
  { rewrite Hsql, Single_sql_text. by rewrite value_args_in_order. }
  split; [exact Hd|]. split; [exact Hlook|].
  split; [apply minArg_Some|]. split; [exact Hws|].
  split; [exact Hall|]. split; [exact Hcs|]. split.
  { unfold unify_positions. apply NoDup_filter, NoDup_seq. }
  split; [|done].
  intros i. unfold unify_positions. rewrite list_elem_of_filter, elem_of_seq.
  unfold is_repeat. split.
  - intros [Hrep _]. destruct (values !! i) as [[a|c]|] eqn:Hi; [|done..].
    apply bool_decide_unpack in Hrep.
    destruct (minArg_is_Some values a) as [m Hm];
      [by eapply list_elem_of_lookup_2|].
    exists a, m. repeat split; [done|]. intros ->. by rewrite Hm in Hrep.
  - intros (a & m & Hi & Hm & Hne). rewrite Hi, Hm. split.
    + apply bool_decide_pack. congruence.
    + apply lookup_lt_Some in Hi. lia.
Qed.

Lemma Single_sql_unification_witness :
  Single_sql edge [AVar x; AVar x] =
    Ok (Sql.mk "SELECT x AS x
FROM edge
WHERE y = x" []).
Proof.
  destruct (Single_sql_unification edge [AVar x; AVar x] eq_refl)
    as (d & cs & ws & cws & Hsql & Hd & _ & _ & _ & Hws & Hcs & _ & _ & Hcws).
  rewrite Hsql. clear Hsql.
  vm_compute in Hd. injection Hd as <-. subst cws.
  inversion Hcs as [|p w d' cs' (cj & Hcj & Hw) Hcs' Hp Hc]. subst.
  inversion Hcs'. subst.
  vm_compute in Hcj. injection Hcj as <-.
  change (unify_positions [AVar x; AVar x]) with [1] in Hws.
  inversion Hws as [|i w l ws' (a & m & ci & cm & Hi & Hm & _ & Hci & Hcm & Hw)
                      Hws' Hp Hc]. subst.
  inversion Hws'. subst.
  vm_compute in Hi. injection Hi as <-.
  vm_compute in Hm. injection Hm as <-.
  vm_compute in Hci. injection Hci as <-.
  vm_compute in Hcm. injection Hcm as <-.
  reflexivity.
Defined.

(** C7. The output variables of a [Single] are the variables occurring in
    its argument list, as a set: a variable is an output exactly when some
    position holds it, so two argument lists holding the same variables
    (whatever the repetitions, the constants and the relation) have the same
    output set. *)
Theorem Single_cols_distinct_vars (rel : Relation) (values : list Arg) :
  (∀ v, v ∈ cols (Single rel values) ↔ AVar v ∈ values) ∧
  (∀ c, cols (Single rel values) =
        cols (Single rel (filter (λ b, b ≠ AConst c) values))) ∧
  (∀ rel' values', (∀ v, AVar v ∈ values ↔ AVar v ∈ values') →
                   cols (Single rel values) = cols (Single rel' values')).
Proof.
  assert (∀ vs v, v ∈ Single_cols vs ↔ AVar v ∈ vs) as Hiff.
  { intros vs v. unfold Single_cols. by rewrite elem_of_list_to_set, elem_of_vars. }
  split; [apply Hiff|]. split.
  - intros c. simpl. apply set_eq. intros v. rewrite !Hiff.
    rewrite list_elem_of_filter. split; [|by intros [_ ?]].
    intros Hin. split; [discriminate | exact Hin].
  - intros rel' values' Hsame. simpl. apply set_eq. intros v.
    by rewrite !Hiff.
Qed.

Lemma Single_cols_distinct_vars_witness :
  cols (Single edge [AVar x; AConst (CInt 5); AVar x]) =
  cols (Single path [AVar x]).
Proof.
  apply (Single_cols_distinct_vars edge [AVar x; AConst (CInt 5); AVar x]).
  intros v. rewrite !elem_of_cons, !elem_of_nil. intuition congruence.
Defined.

(** C9. A [Single] whose arguments are all constants (one per column)
    compiles: the projection is the single placeholder [NULL], the filter
    has one placeholder condition per column, or is [true] for a relation
    without columns, and the parameters are the constants. *)
Theorem Single_sql_all_constants (rel : Relation) (values : list Arg) :
  wf_query (Single rel values) →
  Forall (λ b : Arg, is_var b = false) values →
  Single_sql rel values =
    Ok (Sql.mk ("SELECT " ++ "NULL" ++ nl ++ "FROM " ++ Relation.name rel ++ nl
                ++ where_text (map (λ c, c ++ " = ?") (col_names rel)))
               (value_args values))
  ∧ cols (Single rel values) = ∅.
Proof.
  simpl. intros Hlen Hconst.
  destruct (all_constants_no_vars values Hconst) as (Hvars & Hpos & Hargs).
  destruct (Single_sql_shape rel values)
    as (d & ws & sel & _ & _ & Hnil & _ & Hall & Hsel & _ & ->); [lia|].
  rewrite (Hnil Hvars) in Hsel. injection Hsel as <-.
  rewrite Hpos in Hall. apply Forall2_nil_inv_l in Hall as ->.
  rewrite Hargs, Hlen. unfold col_names at 1.
  rewrite <-(length_map fst), firstn_all. split; [done|].
  unfold Single_cols. by rewrite Hvars.
Qed.

Lemma Single_sql_all_constants_witness :
  Single_sql edge [AConst (CInt 1); AConst (CStr "a")] =
    Ok (Sql.mk ("SELECT NULL" ++ nl ++ "FROM edge" ++ nl
                ++ "WHERE x = ? AND y = ?")
               [CInt 1; CStr "a"]).
Proof.
  refine (proj1 (Single_sql_all_constants edge
                   [AConst (CInt 1); AConst (CStr "a")] eq_refl _)).
  repeat constructor.
Defined.

Section claims.
Context {order : SetOrder}.

Lemma set_iter_elem_of (o : set_object) v : v ∈ set_iter o ↔ v ∈ set_value o.
Proof. by rewrite (set_iter_perm o), elem_of_elements. Qed.

Lemma set_iter_NoDup (o : set_object) : NoDup (set_iter o).
Proof. rewrite (set_iter_perm o). apply NoDup_elements. Qed.

Lemma set_iter_empty (o : set_object) : set_value o = ∅ → set_iter o = [].
Proof.
  intros Hempty. apply Permutation_nil_r.
  rewrite (set_iter_perm o), Hempty. by rewrite elements_empty.
Qed.

Lemma sql_args_constants q s : sql q = Ok s → Sql.args s = constants q.
Proof.
  revert s; induction q as [rel values|l IHl r IHr|l IHl r IHr]; intros s; simpl.
  - intros Hs. rewrite <-value_args_in_order. by apply (Single_sql_args rel).
  - intros H. inv_bind H. subst s. simpl. by rewrite (IHl _ Ha), (IHr _ Ha0).
  - intros H. inv_bind H. subst s. simpl. by rewrite (IHl _ Ha), (IHr _ Ha0).
Qed.

(** ** Head validation *)

Lemma forallb_is_var values :
  forallb is_var values = true ↔ ∀ b : Arg, b ∈ values → is_var b = true.
Proof.
  rewrite forallb_forall. by setoid_rewrite list_elem_of_In.
Qed.

Lemma forallb_is_var_const values c :
  AConst c ∈ values → forallb is_var values = false.
Proof.
  intros Hin. destruct (forallb is_var values) eqn:Hall; [|done].
  rewrite forallb_is_var in Hall. by apply Hall in Hin.
Qed.

Lemma mapM_check_bound_Ok (c : gset Var) values :
  (∀ b : Arg, b ∈ values → ∃ v, b = AVar v ∧ v ∈ c) →
  mapM (check_bound c) values = Ok (map (λ _, tt) values).
Proof.
  induction values as [|b values IH]; intros Hall; [done|].
  destruct (Hall b) as (v & -> & Hv); [by left|].
  simpl. unfold py_assert. rewrite bool_decide_true by done. simpl.
  rewrite IH; [done|]. intros b Hb. apply Hall. by right.
Qed.

Lemma mapM_check_bound_Ok_inv (c : gset Var) values us :
  mapM (check_bound c) values = Ok us →
  ∀ b : Arg, b ∈ values → ∃ v, b = AVar v ∧ v ∈ c.
Proof.
  intros Hall%mapM_Ok_Forall2 b Hb.
  apply list_elem_of_lookup in Hb as [i Hi].
  destruct (Forall2_lookup_l _ _ _ _ _ Hall Hi) as (u & _ & Hcheck).
  destruct b as [v|k]; [|done]. exists v. split; [done|].
  unfold check_bound, py_assert in Hcheck. by case_bool_decide.
Qed.

Lemma mapM_check_bound_first_unbound (c : gset Var) values :
  (∀ b : Arg, b ∈ values → is_var b = true) →
  (∃ v, AVar v ∈ values ∧ v ∉ c) →
  ∃ i w,
    values !! i = Some (AVar w) ∧ (w ∉ c) ∧
    (∀ j u, j < i → values !! j = Some (AVar u) → u ∈ c) ∧
    mapM (check_bound c) values = Raise (AssertionError (head_unbound_msg w)).
Proof.
  induction values as [|b values IH]; intros Hvars (v & Hin & Hv).
  { by apply elem_of_nil in Hin. }
  destruct b as [w|k];
    [|by pose proof (Hvars (AConst k) (list_elem_of_here _ _))].
  destruct (decide (w ∈ c)) as [Hw|Hw].
  - destruct IH as (i & w' & Hi & Hw' & Hmin & Hraise).
    { intros b Hb. apply Hvars. by right. }
    { exists v. split; [|done]. apply elem_of_cons in Hin as [[= ->]|Hin]; done. }
    exists (S i), w'. split; [done|]. split; [done|]. split.
    + intros [|j] u Hj; simpl; [by intros [= ->]|]. apply Hmin. lia.
    + simpl. unfold py_assert. rewrite bool_decide_true by done. simpl.
      by rewrite Hraise.
  - exists 0, w. split; [done|]. split; [done|]. split; [intros; lia|].
    simpl. unfold py_assert. by rewrite bool_decide_false by done.
Qed.

Lemma mapM_arg_name values :
  (∀ b : Arg, b ∈ values → is_var b = true) →
  mapM arg_name values = Ok (map Var.name (omap var_of values)).
Proof.
  induction values as [|b values IH]; intros Hvars; [done|].
  destruct b as [w|k];
    [|by pose proof (Hvars (AConst k) (list_elem_of_here _ _))].
  simpl. rewrite IH; [done|]. intros b Hb. apply Hvars. by right.
Qed.

Lemma Single_le_Ok_head rel values body s :
  Single_le rel values body = Ok s →
  ∀ b : Arg, b ∈ values → ∃ v, b = AVar v ∧ v ∈ cols body.
Proof.
  intros H. unfold Single_le in H.
  apply bind_Ok in H as (_ & _ & H). apply bind_Ok in H as (us & Hus & _).
  by eapply mapM_check_bound_Ok_inv.
Qed.

(** C4, as the code orders the two checks. A constant anywhere in the head
    raises the first assertion, whatever the body binds. When all head
    values are variables and some are unbound, the assertion raised names
    the first unbound one in positional order. A plan is returned only for
    a head of variables all bound by the body, so neither failure is left
    for the execution of the plan. *)
Theorem Single_le_validation (rel : Relation) (values : list Arg) (body : Query) :
  (∀ c, AConst c ∈ values →
        Single_le rel values body = Raise (AssertionError "All values of a query head must be variables")) ∧
  ((∀ b : Arg, b ∈ values → is_var b = true) →
   (∃ v, AVar v ∈ values ∧ v ∉ cols body) →
   ∃ i w,
     values !! i = Some (AVar w) ∧ (w ∉ cols body) ∧
     (∀ j u, j < i → values !! j = Some (AVar u) → u ∈ cols body) ∧
     Single_le rel values body =
       Raise (AssertionError
                ("Variable " ++ Var.name w ++ " in head but not in body"))) ∧
  (∀ s, Single_le rel values body = Ok s →
        ∀ b : Arg, b ∈ values → ∃ v, b = AVar v ∧ v ∈ cols body).
Proof.
  split; [|split].
  - intros c Hc. unfold Single_le, py_assert.
    by rewrite (forallb_is_var_const values c Hc).
  - intros Hvars Hunbound.
    destruct (mapM_check_bound_first_unbound (cols body) values Hvars Hunbound)
      as (i & w & Hi & Hw & Hmin & Hraise).
    exists i, w. repeat split; [done..|].
    unfold Single_le, py_assert.
    apply forallb_is_var in Hvars. rewrite Hvars. simpl. by rewrite Hraise.
  - apply Single_le_Ok_head.
Qed.

(** C5. For a head of variables all bound by a well-formed body, the rule
    compiles: the body's plan [bs] is wrapped into an insert into the head
    relation that selects the head's variables by name, in head order,
    under the filter [true]; the parameters are those of [bs]; a set-typed
    head relation makes the insert skip duplicates. *)
Theorem Single_le_valid_rule (rel : Relation) (values : list Arg) (body : Query) :
  wf_query body →
  (∀ b : Arg, b ∈ values → ∃ v, b = AVar v ∧ v ∈ cols body) →
  ∃ bs,
    sql body = Ok bs ∧
    Single_le rel values body =
      Ok (Sql.mk
            (let code := "INSERT INTO " ++ Relation.name rel ++ nl
                         ++ "SELECT " ++ join "," (map Var.name (omap var_of values))
                         ++ nl ++ "FROM (" ++ Sql.code bs ++ ") WHERE true" in
             if Relation.distinct rel then code ++ " ON CONFLICT DO NOTHING"
             else code)
            (Sql.args bs)).
Proof.
  intros Hwf Hhead. destruct (sql_total body Hwf) as [bs Hbs].
  exists bs. split; [done|].
  assert (∀ b : Arg, b ∈ values → is_var b = true) as Hvars.
  { intros b Hb. by destruct (Hhead b Hb) as (v & -> & _). }
  unfold Single_le, py_assert.
  rewrite (proj2 (forallb_is_var values) Hvars). simpl.
  rewrite (mapM_check_bound_Ok _ _ Hhead). simpl.
  rewrite (mapM_arg_name _ Hvars). simpl.
  by rewrite Hbs.
Qed.

Lemma arg_constants_lookup values (i : nat) (c : Const) :
  values !! i = Some (AConst c) →
  arg_constants values !! length (arg_constants (take i values)) = Some c.
Proof.
  revert i; induction values as [|b values IH]; intros [|i]; simpl; try done.
  - by intros [= ->].
  - intros Hi. destruct b as [v|c']; simpl; by apply IH.
Qed.

Lemma arg_constants_head_vars values :
  (∀ b : Arg, b ∈ values → is_var b = true) → arg_constants values = [].
Proof.
  induction values as [|b values IH]; intros Hvars; [done|].
  destruct b as [v|c]; simpl.
  - apply IH. intros b Hb. apply Hvars. by right.
  - by pose proof (Hvars (AConst c) (list_elem_of_here _ _)).
Qed.

(** C8. The parameters of a compiled plan are the constants of the tree,
    left to right and depth first, one parameter per constant argument: a
    [Single] yields its constants in positional order (the constant at
    position [i] is the parameter whose index is the number of constants
    before [i]), [And] and [Or] the left child's parameters followed by the
    right child's. A compiled rule has a head without constants and carries
    the parameters of its body. *)
Theorem sql_params_depth_first (q : Query) :
  (∀ s, sql q = Ok s → Sql.args s = constants q) ∧
  (wf_query q → ∃ s, sql q = Ok s ∧ Sql.args s = constants q) ∧
  (∀ rel values s i c,
     q = Single rel values → sql q = Ok s →
     values !! i = Some (AConst c) →
     Sql.args s !! length (arg_constants (take i values)) = Some c) ∧
  (∀ l r ls rs,
     q = And l r ∨ q = Or l r → sql l = Ok ls → sql r = Ok rs →
     ∃ s, sql q = Ok s ∧ Sql.args s = (Sql.args ls ++ Sql.args rs)%list) ∧
  (∀ l r, q = And l r ∨ q = Or l r →
          constants q = (constants l ++ constants r)%list) ∧
  (∀ rel values s,
     Single_le rel values q = Ok s →
     constants (Single rel values) = [] ∧
     Sql.args s = (constants (Single rel values) ++ constants q)%list).
Proof.
  split; [apply sql_args_constants|]. split; [|split; [|split; [|split]]].
  - intros [s Hs]%sql_total. exists s. split; [done|].
    by apply sql_args_constants.
  - intros rel values s i c -> Hs Hi.
    rewrite (sql_args_constants _ _ Hs). simpl.
    by apply arg_constants_lookup.
  - intros l r ls rs [->| ->] Hl Hr; simpl; rewrite Hl, Hr; simpl;
      by eexists.
  - by intros l r [->| ->].
  - intros rel values s H.
    assert (∀ b : Arg, b ∈ values → ∃ v, b = AVar v ∧ v ∈ cols q) as Hhead.
    { by eapply Single_le_Ok_head. }
    assert (arg_constants values = []) as Hnil.
    { apply arg_constants_head_vars. intros b Hb.
      by destruct (Hhead b Hb) as (v & -> & _). }
    simpl. rewrite Hnil. split; [done|]. simpl.
    unfold Single_le in H. inv_bind H. subst s. simpl.
    by apply sql_args_constants.
Qed.

(** The text of [And.sql] over children that compile, written out: the
    projection iterates [left_cols] and then the part of [right_cols] outside
    [left_cols], the filter iterates [left_cols & right_cols]. *)
Lemma And_sql_text (l r : Query) (ls rs : Sql) :
  sql l = Ok ls → sql r = Ok rs →
  sql (And l r) =
    Ok (Sql.mk
          ("SELECT "
           ++ String.concat ", "
                (map (λ c, "_t1." ++ Var.name c ++ " AS " ++ Var.name c)
                     (set_iter (cols_of l))
                 ++ map (λ c, "_t2." ++ Var.name c ++ " AS " ++ Var.name c)
                        (filter (λ c, c ∉ cols l) (set_iter (cols_of r))))
           ++ "
FROM (" ++ Sql.code ls ++ ") AS _t1,
(" ++ Sql.code rs ++ ") AS _t2"
           ++ (if set_iter (shared_of l r) is [] then ""
               else "
WHERE "
                    ++ String.concat " AND "
                         (map (λ c, "_t1." ++ Var.name c ++ " = _t2."
                                     ++ Var.name c)
                              (set_iter (shared_of l r)))))
          (Sql.args ls ++ Sql.args rs)).
Proof.
  intros Hls Hrs. simpl. rewrite Hls, Hrs. simpl. unfold And_sql.
  f_equal. f_equal.
  unfold And_selects, And_on_clause, And_on_conds. cbn zeta.
  destruct (set_iter (shared_of l r)) as [|c shared]; [done|].
  by rewrite bool_decide_true by apply join_cond_not_empty.
Qed.

(** C6. For well-formed children, [And(L, R)] compiles to a join of the
    children's plans [ls] and [rs]. Its filter holds one condition
    [_t1.c = _t2.c] for each variable [c] of [shared], which lists each
    variable common to both children once, and these conditions are
    pairwise different; its projection takes each output variable of the
    left child once ([lv], from [_t1]) and each output variable of the
    right child that the left child lacks once ([rv], from [_t2]). Without
    common variables the text has no filter clause at all and the plan is
    the cross product. The three lists may come in any order, each on its
    own. *)
Theorem And_sql_natural_join (l r : Query) :
  wf_query l → wf_query r →
  ∃ ls rs shared lv rv,
    sql l = Ok ls ∧ sql r = Ok rs ∧
    NoDup shared ∧ (∀ v, v ∈ shared ↔ v ∈ cols l ∧ v ∈ cols r) ∧
    NoDup lv ∧ (∀ v, v ∈ lv ↔ v ∈ cols l) ∧
    NoDup rv ∧ (∀ v, v ∈ rv ↔ v ∈ cols r ∧ v ∉ cols l) ∧
    NoDup (map (λ c, "_t1." ++ Var.name c ++ " = _t2." ++ Var.name c) shared) ∧
    sql (And l r) =
      Ok (Sql.mk
            ("SELECT "
             ++ String.concat ", "
                  (map (λ c, "_t1." ++ Var.name c ++ " AS " ++ Var.name c) lv
                   ++ map (λ c, "_t2." ++ Var.name c ++ " AS " ++ Var.name c) rv)
             ++ "
FROM (" ++ Sql.code ls ++ ") AS _t1,
(" ++ Sql.code rs ++ ") AS _t2"
             ++ (if shared is [] then ""
                 else "
WHERE "
                      ++ String.concat " AND "
                           (map (λ c, "_t1." ++ Var.name c ++ " = _t2."
                                       ++ Var.name c) shared)))
            (Sql.args ls ++ Sql.args rs)) ∧
    (cols l ∩ cols r = ∅ →
     shared = [] ∧
     sql (And l r) =
       Ok (Sql.mk
             ("SELECT "
              ++ String.concat ", "
                   (map (λ c, "_t1." ++ Var.name c ++ " AS " ++ Var.name c) lv
                    ++ map (λ c, "_t2." ++ Var.name c ++ " AS " ++ Var.name c) rv)
              ++ "
FROM (" ++ Sql.code ls ++ ") AS _t1,
(" ++ Sql.code rs ++ ") AS _t2")
             (Sql.args ls ++ Sql.args rs))).
Proof.
  intros [ls Hls]%sql_total [rs Hrs]%sql_total.
  exists ls, rs, (set_iter (shared_of l r)), (set_iter (cols_of l)),
         (filter (λ c, c ∉ cols l) (set_iter (cols_of r))).
  pose proof (And_sql_text l r ls rs Hls Hrs) as Hsql.
  split; [done|]. split; [done|].
  split; [apply set_iter_NoDup|].
  split.
  { intros v. rewrite set_iter_elem_of. simpl. apply elem_of_intersection. }
  split; [apply set_iter_NoDup|].
  split; [intros v; apply (set_iter_elem_of (cols_of l))|].
  split; [apply NoDup_filter, set_iter_NoDup|].
  split.
  { intros v. rewrite list_elem_of_filter, set_iter_elem_of. simpl. tauto. }
  split.
  { apply (NoDup_map_inj join_cond); [apply join_cond_inj | apply set_iter_NoDup]. }
  split; [exact Hsql|].
  intros Hdisjoint.
  assert (set_iter (shared_of l r) = []) as Hnil by (by apply set_iter_empty).
  split; [done|].
  rewrite Hsql, Hnil. do 2 f_equal.
Qed.

(** C10. An [Or] over well-formed children without a common output
    variable compiles without raising: its list of names is empty, so the
    outer select and the two inner selects have no column at all. *)
Theorem Or_sql_disjoint_children (l r : Query) :
  wf_query l → wf_query r →
  cols l ∩ cols r = ∅ →
  ∃ ls rs,
    sql l = Ok ls ∧ sql r = Ok rs ∧
    cols (Or l r) = ∅ ∧
    Or_names (Or l r) = "" ∧
    sql (Or l r) =
      Ok (Sql.mk
            ("SELECT " ++ "" ++ nl
             ++ "FROM (" ++ ("SELECT " ++ "" ++ " FROM (" ++ Sql.code ls ++ ")")
             ++ nl ++ "UNION ALL "
             ++ ("SELECT " ++ "" ++ " FROM (" ++ Sql.code rs ++ ")") ++ ")")
            (Sql.args ls ++ Sql.args rs)).
Proof.
  intros [ls Hls]%sql_total [rs Hrs]%sql_total Hdisjoint.
  exists ls, rs. split; [done|]. split; [done|]. split; [done|].
  assert (Or_names (Or l r) = "") as Hnames.
  { unfold Or_names. by rewrite set_iter_empty. }
  split; [exact Hnames|].
  simpl. rewrite Hls, Hrs. simpl. unfold Or_sql. by rewrite Hnames.
Qed.

End claims.

(** ** Instances on the relations of the test suite *)

Lemma Single_le_validation_witness :
  Single_le path [AVar x; AConst (CInt 5)] (Single edge [AVar x; AVar y]) =
    Raise (AssertionError "All values of a query head must be variables")
  ∧ ∃ i w,
      [AVar x; AVar z] !! i = Some (AVar w) ∧ (w ∉ cols (Single edge [AVar x; AVar y])) ∧
      Single_le path [AVar x; AVar z] (Single edge [AVar x; AVar y]) =
        Raise (AssertionError
                 ("Variable " ++ Var.name w ++ " in head but not in body")).
Proof.
  split.
  - apply (proj1 (Single_le_validation path [AVar x; AConst (CInt 5)]
                    (Single edge [AVar x; AVar y])) (CInt 5)).
    by_computation.
  - destruct (proj1 (proj2 (Single_le_validation path [AVar x; AVar z]
                              (Single edge [AVar x; AVar y]))))
      as (i & w & Hi & Hw & _ & Hraise).
    + intros b Hb. apply elem_of_cons in Hb as [->|Hb]; [reflexivity|].
      apply elem_of_cons in Hb as [->|Hb]; [reflexivity|].
      by apply elem_of_nil in Hb.
    + exists z. split; by_computation.
    + exists i, w. split; [exact Hi|]. split; [exact Hw | exact Hraise].
Defined.

(** C4 as stated fails on a head that mixes a constant with an unbound
    variable: for [path(x, 5) <= edge(y, z)] the variable [x] is a head
    variable that the body does not bind, and the error raised is the one
    about constants, whose message does not contain the name [x]. *)
Lemma Single_le_unbound_variable_not_named :
  ¬ (∀ (rel : Relation) (values : list Arg) (body : Query) (v : Var),
       AVar v ∈ values → v ∉ cols body →
       ∃ msg, Single_le rel values body = Raise (AssertionError msg) ∧
              is_Some (String.index 0 (Var.name v) msg)).
Proof.
  intros Hclaim.
  destruct (Hclaim path [AVar x; AConst (CInt 5)] (Single edge [AVar y; AVar z]) x)
    as (msg & Hraise & Hnamed).
  - by_computation.
  - by_computation.
  - vm_compute in Hraise. injection Hraise as <-.
    vm_compute in Hnamed. by destruct Hnamed.
Qed.

Lemma Single_le_valid_rule_witness :
  ∃ bs,
    sql (Or (Single edge [AVar x; AVar z])
            (And (Single edge [AVar x; AVar y]) (Single path [AVar y; AVar z])))
      = Ok bs ∧
    Single_le path [AVar x; AVar z]
      (Or (Single edge [AVar x; AVar z])
          (And (Single edge [AVar x; AVar y]) (Single path [AVar y; AVar z])))
      = Ok (Sql.mk (("INSERT INTO path" ++ nl ++ "SELECT x,z" ++ nl
                     ++ "FROM (" ++ Sql.code bs ++ ") WHERE true")
                    ++ " ON CONFLICT DO NOTHING")
                   (Sql.args bs)).
Proof.
  destruct (Single_le_valid_rule path [AVar x; AVar z]
              (Or (Single edge [AVar x; AVar z])
                  (And (Single edge [AVar x; AVar y])
                       (Single path [AVar y; AVar z]))))
    as (bs & Hbs & Hrule).
  - repeat split.
  - intros b Hb. apply elem_of_cons in Hb as [->|Hb].
    { exists x. split; [reflexivity | by_computation]. }
    apply elem_of_cons in Hb as [->|Hb].
    { exists z. split; [reflexivity | by_computation]. }
    by apply elem_of_nil in Hb.
  - exists bs. split; [exact Hbs | exact Hrule].
Defined.

Lemma And_sql_natural_join_witness :
  sql (And (Single edge [AVar x; AVar y]) (Single path [AVar y; AVar z])) =
    Ok (Sql.mk "SELECT _t1.y AS y, _t1.x AS x, _t2.z AS z
FROM (SELECT x AS x, y AS y
FROM edge
WHERE true) AS _t1,
(SELECT x AS y, y AS z
FROM path
WHERE true) AS _t2
WHERE _t1.y = _t2.y" [])
  ∧ ∃ ls rs shared lv rv,
      sql (Single edge [AVar x; AVar y]) = Ok ls ∧
      sql (Single path [AVar y; AVar z]) = Ok rs ∧
      (∀ v, v ∈ shared ↔ v ∈ cols (Single edge [AVar x; AVar y])
                         ∧ v ∈ cols (Single path [AVar y; AVar z])) ∧
      (∀ v, v ∈ lv ↔ v ∈ cols (Single edge [AVar x; AVar y])) ∧
      (∀ v, v ∈ rv ↔ v ∈ cols (Single path [AVar y; AVar z])
                     ∧ v ∉ cols (Single edge [AVar x; AVar y])) ∧
      sql (And (Single edge [AVar x; AVar y]) (Single path [AVar y; AVar z])) =
        Ok (Sql.mk
              ("SELECT "
               ++ String.concat ", "
                    (map (λ c, "_t1." ++ Var.name c ++ " AS " ++ Var.name c) lv
                     ++ map (λ c, "_t2." ++ Var.name c ++ " AS " ++ Var.name c) rv)
               ++ "
FROM (" ++ Sql.code ls ++ ") AS _t1,
(" ++ Sql.code rs ++ ") AS _t2"
               ++ (if shared is [] then ""
                   else "
WHERE "
                        ++ String.concat " AND "
                             (map (λ c, "_t1." ++ Var.name c ++ " = _t2."
                                         ++ Var.name c) shared)))
              (Sql.args ls ++ Sql.args rs)).
Proof.
  split; [vm_compute; reflexivity|].
  destruct (And_sql_natural_join (Single edge [AVar x; AVar y])
                                 (Single path [AVar y; AVar z]))
    as (ls & rs & shared & lv & rv & Hls & Hrs & _ & Hshared & _ & Hlv & _ & Hrv
        & _ & Hsql & _).
  - reflexivity.
  - reflexivity.
  - exists ls, rs, shared, lv, rv. split; [exact Hls|]. split; [exact Hrs|].
    split; [exact Hshared|]. split; [exact Hlv|]. split; [exact Hrv|].
    exact Hsql.
Defined.

Lemma sql_params_depth_first_witness :
  ∃ s,
    sql (And (Single edge [AConst (CInt 1); AConst (CInt 2)])
             (Or (Single edge [AVar x; AConst (CInt 3)])
                 (Single path [AConst (CInt 4); AVar x]))) = Ok s ∧
    Sql.args s = [CInt 1; CInt 2; CInt 3; CInt 4].
Proof.
  refine (proj1 (proj2 (sql_params_depth_first
            (And (Single edge [AConst (CInt 1); AConst (CInt 2)])
                 (Or (Single edge [AVar x; AConst (CInt 3)])
                     (Single path [AConst (CInt 4); AVar x]))))) _).
  repeat split.
Defined.

Lemma Or_sql_disjoint_children_witness :
  ∃ ls rs,
    sql (Single edge [AVar x; AVar y]) = Ok ls ∧
    sql (Single edge [AVar z; AConst (CInt 5)]) = Ok rs ∧
    sql (Or (Single edge [AVar x; AVar y]) (Single edge [AVar z; AConst (CInt 5)])) =
      Ok (Sql.mk
            ("SELECT " ++ "" ++ nl
             ++ "FROM (" ++ ("SELECT " ++ "" ++ " FROM (" ++ Sql.code ls ++ ")")
             ++ nl ++ "UNION ALL "
             ++ ("SELECT " ++ "" ++ " FROM (" ++ Sql.code rs ++ ")") ++ ")")
            (Sql.args ls ++ Sql.args rs)).
Proof.
  destruct (Or_sql_disjoint_children (Single edge [AVar x; AVar y])
                                     (Single edge [AVar z; AConst (CInt 5)]))
    as (ls & rs & Hls & Hrs & _ & _ & Hsql).
  - reflexivity.
  - reflexivity.
  - by_computation.
  - exists ls, rs. split; [exact Hls|]. split; [exact Hrs | exact Hsql].
Defined.

(** ** The rule of the test suite, compiled *)

Example test_query_rule :
  Single_le path [AVar x; AVar z]
    (Or (Single edge [AVar x; AVar z])
        (And (Single edge [AVar x; AVar y]) (Single path [AVar y; AVar z])))
  = Ok (Sql.mk
          ("INSERT INTO path" ++ nl
           ++ "SELECT x,z" ++ nl
           ++ "FROM (SELECT z, x" ++ nl
           ++ "FROM (SELECT z, x FROM (SELECT x AS x, y AS z" ++ nl
           ++ "FROM edge" ++ nl
           ++ "WHERE true)" ++ nl
           ++ "UNION ALL SELECT z, x FROM (SELECT _t1.y AS y, _t1.x AS x, _t2.z AS z" ++ nl
           ++ "FROM (SELECT x AS x, y AS y" ++ nl
           ++ "FROM edge" ++ nl
           ++ "WHERE true) AS _t1," ++ nl
           ++ "(SELECT x AS y, y AS z" ++ nl
           ++ "FROM path" ++ nl
           ++ "WHERE true) AS _t2" ++ nl
           ++ "WHERE _t1.y = _t2.y))) WHERE true ON CONFLICT DO NOTHING")
          []).
Proof. vm_compute. reflexivity. Qed.

Example repeated_variable_unifies :
  Single_sql edge [AVar x; AVar x] =
    Ok (Sql.mk ("SELECT x AS x" ++ nl ++ "FROM edge" ++ nl ++ "WHERE y = x") []).
Proof. reflexivity. Qed.

Example surplus_variable_raises :
  Single_sql edge [AVar x; AVar y; AVar z] = Raise IndexError.
Proof. reflexivity. Qed.

(** * Further properties *)

(** ** The projection of a [Single] *)

Lemma elem_of_first_occurrences (vs : list Var) (v : Var) :
  v ∈ first_occurrences vs ↔ v ∈ vs.
Proof.
  induction vs as [|w vs IH]; simpl; [done|].
  rewrite !elem_of_cons, list_elem_of_filter, IH.
  destruct (decide (v = w)) as [->|Hne]; [tauto|]. tauto.
Qed.

Lemma NoDup_first_occurrences (vs : list Var) : NoDup (first_occurrences vs).
Proof.
  induction vs as [|w vs IH]; simpl; constructor.
  - rewrite list_elem_of_filter. tauto.
  - by apply NoDup_filter.
Qed.

Lemma dict_set_with_first_index values (ks : list Var) (v : Var) :
  dict_set (map (with_first_index values) ks) v (first_index values v) =
    map (with_first_index values) (if decide (v ∈ ks) then ks else ks ++ [v]).
Proof.
  induction ks as [|k ks IH]; simpl.
  - destruct (decide (v ∈ [])) as [Hin%elem_of_nil|]; done.
  - destruct (decide (v = k)) as [->|Hne].
    + rewrite decide_True by (by left). done.
    + rewrite IH. destruct (decide (v ∈ ks)) as [Hin|Hnin].
      * rewrite decide_True by (by right). done.
      * rewrite decide_False; [done|].
        intros [?|?]%elem_of_cons; done.
Qed.

Lemma min_arg_fold_first_occurrences values (ks vs : list Var) :
  foldl (min_arg_step values) (map (with_first_index values) ks) vs =
    map (with_first_index values)
        (ks ++ filter (λ w, w ∉ ks) (first_occurrences vs)).
Proof.
  revert ks; induction vs as [|v vs IH]; intros ks; simpl.
  { by rewrite app_nil_r. }
  unfold min_arg_step at 2. rewrite dict_set_with_first_index.
  rewrite IH. f_equal. rewrite filter_cons.
  destruct (decide (v ∈ ks)) as [Hin|Hnin].
  - rewrite decide_False by (intros Hnin; by apply Hnin). f_equal.
    rewrite list_filter_filter. apply list_filter_iff.
    intros w. split; [|by intros [? _]]. intros Hw. split; [done|]. by intros ->.
  - rewrite decide_True by done. rewrite <-app_assoc. simpl. do 2 f_equal.
    rewrite list_filter_filter. apply list_filter_iff.
    intros w. rewrite elem_of_app, list_elem_of_singleton. split.
    + intros Hw. split; [intros ?|intros ?]; apply Hw; [by left | by right].
    + intros [Hw Hne] [?|?]; done.
Qed.

(** The dictionary [min_arg] holds the distinct variables of [values] in
    the order of their first occurrence, each with its first position. *)
Lemma min_arg_first_occurrences values :
  min_arg values =
    Ok (map (with_first_index values) (first_occurrences (omap var_of values))).
Proof.
  unfold min_arg. rewrite min_arg_loop_fold by done.
  rewrite (min_arg_fold_first_occurrences values []). simpl. f_equal. f_equal.
  induction (first_occurrences (omap var_of values)) as [|w l IH]; [done|].
  rewrite filter_cons, decide_True by apply not_elem_of_nil. by rewrite IH.
Qed.

Lemma minArg_cons_here values u : minArg (AVar u :: values) u = Some 0.
Proof. apply minArg_Some. split; [done | intros j Hj; lia]. Qed.

Lemma minArg_cons_other values (b : Arg) a m :
  b ≠ AVar a → minArg values a = Some m → minArg (b :: values) a = Some (S m).
Proof.
  intros Hne [Hm Hmin]%minArg_Some. apply minArg_Some. split; [done|].
  intros [|j] Hj; simpl; [congruence|]. apply Hmin. lia.
Qed.

Lemma first_index_cons_other values (b : Arg) a :
  b ≠ AVar a → AVar a ∈ values →
  first_index (b :: values) a = S (first_index values a).
Proof.
  intros Hne [m Hm]%minArg_is_Some. unfold first_index.
  by rewrite (minArg_cons_other _ _ _ _ Hne Hm), Hm.
Qed.

Lemma StronglySorted_map_filter {A : Type} (f : A → nat) (P : A → Prop)
    `{∀ x, Decision (P x)} (l : list A) :
  StronglySorted lt (map f l) → StronglySorted lt (map f (filter P l)).
Proof.
  induction l as [|x l IH]; simpl; [done|].
  intros [Hx Hl]%StronglySorted_cons. rewrite filter_cons.
  destruct (decide (P x)); [|by apply IH]. simpl.
  apply StronglySorted_cons. split; [|by apply IH].
  apply Forall_forall. intros n Hn.
  apply list_elem_of_In, in_map_iff in Hn as (y & <- & Hy).
  apply list_elem_of_In, list_elem_of_filter in Hy as [_ Hy].
  rewrite Forall_forall in Hx. apply Hx.
  apply list_elem_of_In, in_map_iff. exists y. split; [done|].
  by apply list_elem_of_In.
Qed.

Lemma StronglySorted_map_shift {A : Type} (f g : A → nat) (l : list A) :
  (∀ x, x ∈ l → g x = S (f x)) →
  StronglySorted lt (map f l) → StronglySorted lt (map g l).
Proof.
  induction l as [|x l IH]; simpl; [done|].
  intros Hg [Hx Hl]%StronglySorted_cons.
  apply StronglySorted_cons. split.
  - apply Forall_forall. intros n Hn.
    apply list_elem_of_In, in_map_iff in Hn as (y & <- & Hy).
    apply list_elem_of_In in Hy.
    rewrite (Hg x) by (by left). rewrite (Hg y) by (by right).
    rewrite Forall_forall in Hx.
    assert (f x < f y); [|lia]. apply Hx.
    apply list_elem_of_In, in_map_iff. exists y. split; [done|].
    by apply list_elem_of_In.
  - apply IH; [|done]. intros y Hy. apply Hg. by right.
Qed.

(** First positions grow along the order of first occurrence. *)
Lemma first_occurrences_sorted values :
  StronglySorted lt
    (map (first_index values) (first_occurrences (omap var_of values))).
Proof.
  induction values as [|[u|c] values IH].
  - constructor.
  - change (omap var_of (AVar u :: values)) with (u :: omap var_of values).
    simpl. apply StronglySorted_cons. split.
    + apply Forall_forall. intros n Hn.
      apply list_elem_of_In, in_map_iff in Hn as (w & <- & Hw).
      apply list_elem_of_In, list_elem_of_filter in Hw as [Hne Hw].
      apply elem_of_first_occurrences, elem_of_vars in Hw.
      rewrite (first_index_cons_other values (AVar u) w); [|congruence|done].
      unfold first_index at 1. rewrite minArg_cons_here. simpl. lia.
    + apply (StronglySorted_map_shift (first_index values)).
      * intros w [Hne Hw]%list_elem_of_filter.
        apply elem_of_first_occurrences, elem_of_vars in Hw.
        apply first_index_cons_other; [congruence | done].
      * by apply StronglySorted_map_filter.
  - change (omap var_of (AConst c :: values)) with (omap var_of values).
    apply (StronglySorted_map_shift (first_index values)); [|done].
    intros w Hw%elem_of_first_occurrences%elem_of_vars.
    by apply first_index_cons_other.
Qed.

(** ** Which exceptions compilation can raise *)

Lemma py_index_Raise {A : Type} (l : list A) (i : nat) (e : exn) :
  py_index l i = Raise e → e = IndexError.
Proof. unfold py_index. destruct (l !! i); [done|]. by intros [= <-]. Qed.

Lemma py_index_Ok {A : Type} (l : list A) (i : nat) (x : A) :
  py_index l i = Ok x → i < length l.
Proof.
  unfold py_index. destruct (l !! i) eqn:Hi; [|done].
  intros _. by eapply lookup_lt_Some.
Qed.

Lemma comprehension_Ok_elem {A B : Type} (f : A → result (option B))
    (l : list A) (bs : list B) (x : A) :
  comprehension f l = Ok bs → x ∈ l → ∃ o, f x = Ok o.
Proof.
  revert bs; induction l as [|y l IH]; intros bs H Hx.
  { by apply elem_of_nil in Hx. }
  simpl in H. apply bind_Ok in H as (o & Ho & H).
  apply bind_Ok in H as (bs' & Hbs' & _).
  apply elem_of_cons in Hx as [->|Hx]; [by exists o | by eapply IH].
Qed.

Lemma comprehension_Raise {A B : Type} (f : A → result (option B))
    (l : list A) (e : exn) :
  comprehension f l = Raise e → ∃ x, x ∈ l ∧ f x = Raise e.
Proof.
  induction l as [|y l IH]; simpl; [done|].
  destruct (f y) as [o|e'] eqn:Hy; simpl.
  - destruct (comprehension f l) as [bs|e'] eqn:Hl; simpl; [done|].
    intros [= ->]. destruct IH as (x & Hx & Hfx); [done|].
    exists x. split; [by right | done].
  - intros [= ->]. exists y. split; [by left | done].
Qed.

Lemma mapM_Raise {A B : Type} (f : A → result B) (l : list A) (e : exn) :
  mapM f l = Raise e → ∃ x, x ∈ l ∧ f x = Raise e.
Proof.
  induction l as [|y l IH]; simpl; [done|].
  destruct (f y) as [b|e'] eqn:Hy; simpl.
  - destruct (mapM f l) as [bs|e'] eqn:Hl; simpl; [done|].
    intros [= ->]. destruct IH as (x & Hx & Hfx); [done|].
    exists x. split; [by right | done].
  - intros [= ->]. exists y. split; [by left | done].
Qed.

Lemma enumerate_from_lookup {A : Type} (k : nat) (l : list A) (j : nat) :
  enumerate_from k l !! j = (λ b, (k + j, b)) <$> l !! j.
Proof.
  revert k j; induction l as [|b l IH]; intros k j; [done|].
  rewrite enumerate_from_cons. destruct j as [|j]; simpl.
  - by rewrite Nat.add_0_r.
  - rewrite IH. by replace (S k + j) with (k + S j) by lia.
Qed.

Lemma elem_of_enumerate {A : Type} (l : list A) (i : nat) (b : A) :
  (i, b) ∈ enumerate l ↔ l !! i = Some b.
Proof.
  unfold enumerate. fold (enumerate_from 0 l). rewrite list_elem_of_lookup.
  split.
  - intros [j Hj]. rewrite enumerate_from_lookup in Hj.
    destruct (l !! j) as [b'|] eqn:Hb; [|done].
    simpl in Hj. injection Hj as <- <-. done.
  - intros Hi. exists i. rewrite enumerate_from_lookup, Hi. done.
Qed.

Lemma Single_var_wheres_from_fits col_names values d k l :
  (∀ i a, values !! i = Some (AVar a) → i < length col_names) →
  (∀ a, AVar a ∈ values → dict_lookup d a = minArg values a) →
  (∀ j b, l !! j = Some b → values !! (k + j) = Some b) →
  ∃ ws,
    comprehension (Single_var_where col_names d) (enumerate_from k l) = Ok ws ∧
    Forall2 (unify_cond col_names values)
            (filter (λ i, is_repeat values i) (seq k (length l))) ws.
Proof.
  intros Hfit Hd. revert k; induction l as [|b l IH]; intros k Hl.
  { exists []. split; [done | constructor]. }
  assert (values !! k = Some b) as Hk.
  { rewrite <-(Nat.add_0_r k). by apply Hl. }
  destruct (IH (S k)) as (ws & Hws & Hall).
  { intros j c Hj. replace (S k + j) with (k + S j) by lia. by apply Hl. }
  rewrite enumerate_from_cons. cbn [comprehension length seq].
  rewrite filter_cons.
  destruct b as [a|c]; cycle 1.
  { rewrite Single_var_where_const, Hws. exists ws. split; [done|].
    rewrite decide_False; [done|]. unfold is_repeat. rewrite Hk. by intros ?. }
  assert (AVar a ∈ values) as Ha by (by eapply list_elem_of_lookup_2).
  destruct (minArg_is_Some values a Ha) as [m Hm].
  rewrite Single_var_where_var.
  unfold dict_get. rewrite (Hd a Ha), Hm. cbn [mbind result_bind].
  destruct (decide (m = k)) as [->|Hne].
  - rewrite bool_decide_false by (intros ?; done).
    cbn [mbind result_bind mret result_ret].
    rewrite Hws. exists ws. split; [done|].
    rewrite decide_False; [done|]. unfold is_repeat. rewrite Hk, Hm.
    rewrite bool_decide_false; [by intros ? | by intros ?].
  - rewrite bool_decide_true by done.
    destruct (py_index_lt col_names k) as (ci & Hci & ->).
    { by apply (Hfit k a). }
    destruct (py_index_lt col_names m) as (cm & Hcm & ->).
    { apply minArg_Some in Hm as [Hm _]. by apply (Hfit m a). }
    cbn [mbind result_bind mret result_ret]. rewrite Hws.
    exists ((ci ++ " = " ++ cm) :: ws). split; [done|].
    rewrite decide_True; cycle 1.
    { unfold is_repeat. rewrite Hk, Hm.
      rewrite bool_decide_true; [done | congruence]. }
    constructor; [|done].
    exists a, m, ci, cm. repeat split; done.
Qed.

Lemma Single_const_wheres_fits col_names values :
  length (value_args values) ≤ length col_names →
  Single_const_wheres col_names values =
    Ok (map (λ c, c ++ " = ?") (take (length (value_args values)) col_names)).
Proof.
  intros Hlen. unfold Single_const_wheres.
  rewrite (mapM_index_seq col_names (λ c, c ++ " = ?") 0) by lia.
  by rewrite drop_0.
Qed.

(** The plan of a [Single] whose relation [fits] it: the dictionary is
    the list of first occurrences, the projection has one item for each
    of its entries, the filter is made of the unification conditions
    followed by the placeholders of the constants. *)
Lemma Single_sql_shape_fits rel values :
  fits rel values →
  ∃ cs ws,
    let d := map (with_first_index values)
                 (first_occurrences (omap var_of values)) in
    min_arg values = Ok d ∧
    Forall2 (select_item (col_names rel)) d cs ∧
    Forall2 (unify_cond (col_names rel) values) (unify_positions values) ws ∧
    Single_sql rel values =
      Ok (Sql.mk
            ("SELECT " ++ (if d is [] then "NULL" else join ", " cs) ++ nl
             ++ "FROM " ++ Relation.name rel ++ nl
             ++ where_text
                  (ws ++ map (λ c, c ++ " = ?")
                             (take (length (value_args values)) (col_names rel))))
            (value_args values)).
Proof.
  intros [Hvars Hconsts].
  assert (length (col_names rel) = length (Relation.args rel)) as Hcn.
  { unfold col_names. by rewrite length_map. }
  destruct (min_arg_Ok values) as (d & Hd & Hlook & Hkeys & _).
  assert (d = map (with_first_index values)
                  (first_occurrences (omap var_of values))) as Hd'.
  { rewrite min_arg_first_occurrences in Hd. by injection Hd. }
  destruct (Single_var_wheres_from_fits (col_names rel) values d 0 values)
    as (ws & Hws & Hall); [|done|done|].
  { intros i a Hi. rewrite Hcn. by eapply Hvars. }
  destruct (Single_selects_Ok (col_names rel) d) as (sel & Hsel & Hshape).
  { intros a j [_ Hj]%Hkeys. apply minArg_Some in Hj as [Hj _].
    rewrite Hcn. by eapply Hvars. }
  assert (∃ cs, Forall2 (select_item (col_names rel)) d cs ∧
                sel = if d is [] then "NULL" else join ", " cs)
    as (cs & Hcs & ->).
  { destruct d as [|p d0]; [exists []; split; [constructor | done]|].
    destruct Hshape as (cs & Hcs & ->). by exists cs. }
  exists cs, ws. cbn zeta. rewrite <-Hd'.
  split; [done|]. split; [done|]. split; [done|].
  unfold Single_sql. rewrite Hd. simpl.
  unfold Single_var_wheres, enumerate. fold (enumerate_from 0 values).
  rewrite Hws. simpl.
  rewrite Single_const_wheres_fits by lia. simpl.
  by rewrite Hsel.
Qed.

Lemma Single_var_where_Raise col_names values d i (b : Arg) e :
  (∀ a, AVar a ∈ values → dict_lookup d a = minArg values a) →
  values !! i = Some b →
  Single_var_where col_names d (i, b) = Raise e → e = IndexError.
Proof.
  intros Hd Hi. destruct b as [a|c]; [|done].
  assert (AVar a ∈ values) as Ha by (by eapply list_elem_of_lookup_2).
  destruct (minArg_is_Some values a Ha) as [m Hm].
  rewrite Single_var_where_var. unfold dict_get. rewrite (Hd a Ha), Hm.
  cbn [mbind result_bind]. case_bool_decide; [|done].
  destruct (py_index col_names i) as [ci|e'] eqn:Hci; simpl.
  - destruct (py_index col_names m) as [cm|e'] eqn:Hcm; simpl; [done|].
    intros [= <-]. by eapply py_index_Raise.
  - intros [= <-]. by eapply py_index_Raise.
Qed.

Lemma Single_const_wheres_Raise col_names values e :
  Single_const_wheres col_names values = Raise e → e = IndexError.
Proof.
  intros (i & _ & Hi)%mapM_Raise.
  destruct (py_index col_names i) as [c|e'] eqn:Hc; simpl in Hi; [done|].
  injection Hi as <-. by eapply py_index_Raise.
Qed.

Lemma Single_selects_Raise col_names d e :
  Single_selects col_names d = Raise e → e = IndexError.
Proof.
  unfold Single_selects. case_bool_decide; [|done].
  match goal with |- context [mapM ?f d] =>
    destruct (mapM f d) as [cs|e'] eqn:Hcs end; simpl; [done|].
  intros [= <-]. apply mapM_Raise in Hcs as ([a j] & _ & Hj). simpl in Hj.
  destruct (py_index col_names j) as [c|e''] eqn:Hc; simpl in Hj; [done|].
  injection Hj as <-. by eapply py_index_Raise.
Qed.

Lemma Single_sql_Raise rel values e :
  Single_sql rel values = Raise e → e = IndexError.
Proof.
  destruct (min_arg_Ok values) as (d & Hd & Hlook & _ & _).
  unfold Single_sql. rewrite Hd. simpl.
  destruct (Single_var_wheres (col_names rel) values d) as [ws|e'] eqn:Hws; simpl.
  - destruct (Single_const_wheres (col_names rel) values) as [cws|e'] eqn:Hcws;
      simpl.
    + destruct (Single_selects (col_names rel) d) as [sel|e'] eqn:Hsel; simpl;
        [done|].
      intros [= <-]. by eapply Single_selects_Raise.
    + intros [= <-]. by eapply Single_const_wheres_Raise.
  - intros [= <-]. apply comprehension_Raise in Hws as ([i b] & Hib & Hraise).
    apply elem_of_enumerate in Hib. by eapply Single_var_where_Raise.
Qed.

Lemma Single_sql_Ok_fits rel values s :
  Single_sql rel values = Ok s → fits rel values.
Proof.
  assert (length (col_names rel) = length (Relation.args rel)) as Hcn.
  { unfold col_names. by rewrite length_map. }
  destruct (min_arg_Ok values) as (d & Hd & Hlook & _ & _).
  assert (d = map (with_first_index values)
                  (first_occurrences (omap var_of values))) as Hd'.
  { rewrite min_arg_first_occurrences in Hd. by injection Hd. }
  unfold Single_sql. rewrite Hd. simpl. intros H.
  apply bind_Ok in H as (ws & Hws & H).
  apply bind_Ok in H as (cws & Hcws & H).
  apply bind_Ok in H as (sel & Hsel & _).
  split.
  - intros i a Hi. rewrite <-Hcn.
    assert (AVar a ∈ values) as Ha by (by eapply list_elem_of_lookup_2).
    destruct (minArg_is_Some values a Ha) as [m Hm].
    destruct (decide (m = i)) as [->|Hne].
    + assert ((a, i) ∈ d) as Hin.
      { rewrite Hd'. apply list_elem_of_In, in_map_iff. exists a. split.
        - unfold with_first_index, first_index. by rewrite Hm.
        - by apply list_elem_of_In, elem_of_first_occurrences, elem_of_vars. }
      unfold Single_selects in Hsel.
      rewrite bool_decide_true in Hsel
        by (destruct d; [by apply elem_of_nil in Hin | simpl; lia]).
      apply bind_Ok in Hsel as (cs & Hcs & _).
      apply mapM_Ok_Forall2 in Hcs.
      apply list_elem_of_lookup in Hin as [n Hn].
      destruct (Forall2_lookup_l _ _ _ _ _ Hcs Hn) as (c & _ & Hc).
      simpl in Hc. apply bind_Ok in Hc as (ci & Hci & _).
      by eapply py_index_Ok.
    + destruct (comprehension_Ok_elem _ _ _ (i, AVar a) Hws) as [o Ho].
      { by apply elem_of_enumerate. }
      rewrite Single_var_where_var in Ho. unfold dict_get in Ho.
      rewrite (Hlook a Ha), Hm in Ho. cbn [mbind result_bind] in Ho.
      rewrite bool_decide_true in Ho by done.
      apply bind_Ok in Ho as (ci & Hci & _). by eapply py_index_Ok.
  - rewrite <-Hcn. unfold Single_const_wheres in Hcws.
    apply mapM_Ok_Forall2 in Hcws.
    destruct (length (value_args values)) as [|c] eqn:Hc; [lia|].
    assert (seq 0 (S c) !! c = Some c) as Hlast.
    { rewrite lookup_seq. split; [done | lia]. }
    destruct (Forall2_lookup_l _ _ _ _ _ Hcws Hlast) as (w & _ & Hw).
    apply bind_Ok in Hw as (ci & Hci & _). apply py_index_Ok in Hci. lia.
Qed.

(** X1. The projection of a [Single] whose relation fits it lists each
    distinct variable once, in the order of first occurrence (the first
    positions [j] grow along the list), as [column[j] AS name] where [j] is
    the variable's first position [minArg]; without any variable it is
    the single column [NULL]. *)
Theorem Single_sql_projection (rel : Relation) (values : list Arg) :
  fits rel values →
  ∃ d cs ws,
    min_arg values = Ok d ∧
    map fst d = first_occurrences (omap var_of values) ∧
    NoDup (map fst d) ∧
    (∀ v, v ∈ map fst d ↔ v ∈ cols (Single rel values)) ∧
    (∀ v j, (v, j) ∈ d → minArg values v = Some j) ∧
    StronglySorted lt (map snd d) ∧
    Forall2 (select_item (col_names rel)) d cs ∧
    Single_sql rel values =
      Ok (Sql.mk
            ("SELECT " ++ (if d is [] then "NULL" else join ", " cs) ++ nl
             ++ "FROM " ++ Relation.name rel ++ nl ++ where_text ws)
            (value_args values)).
Proof.
  intros Hfits.
  destruct (Single_sql_shape_fits rel values Hfits)
    as (cs & ws & Hd & Hcs & _ & Hsql).
  cbn zeta in *.
  set (d := map (with_first_index values)
                (first_occurrences (omap var_of values))) in *.
  assert (map fst d = first_occurrences (omap var_of values)) as Hkeys.
  { unfold d. rewrite map_map. simpl. apply map_id. }
  exists d, cs, (ws ++ map (λ c : string, (c ++ " = ?")%string)
                          (take (length (value_args values)) (col_names rel)))%list.
  split; [done|]. split; [done|]. split.
  { rewrite Hkeys. apply NoDup_first_occurrences. }
  split.
  { intros v. rewrite Hkeys, elem_of_first_occurrences. simpl.
    unfold Single_cols. by rewrite elem_of_list_to_set. }
  split.
  { intros v j Hin. destruct (min_arg_Ok values) as (d' & Hd' & _ & Hin' & _).
    rewrite Hd in Hd'. injection Hd' as <-. by apply Hin'. }
  split; [|split; [done|exact Hsql]].
  unfold d. rewrite map_map. simpl. apply first_occurrences_sorted.
Qed.

Lemma Single_sql_projection_witness :
  ∃ d cs ws,
    min_arg [AVar y; AVar y] = Ok d ∧
    map fst d = first_occurrences (omap var_of [AVar y; AVar y]) ∧
    (∀ v j, (v, j) ∈ d → minArg [AVar y; AVar y] v = Some j) ∧
    Forall2 (select_item (col_names edge)) d cs ∧
    Single_sql edge [AVar y; AVar y] =
      Ok (Sql.mk
            ("SELECT " ++ (if d is [] then "NULL" else join ", " cs) ++ nl
             ++ "FROM " ++ Relation.name edge ++ nl ++ where_text ws)
            (value_args [AVar y; AVar y])).
Proof.
  destruct (Single_sql_projection edge [AVar y; AVar y])
    as (d & cs & ws & Hd & Hkeys & _ & _ & Hmin & _ & Hcs & Hsql).
  { split; [|simpl; lia]. intros [|[|i]] a; simpl; [lia | lia | done]. }
  exists d, cs, ws. split; [exact Hd|]. split; [exact Hkeys|].
  split; [exact Hmin|]. split; [exact Hcs | exact Hsql].
Defined.

(** X2. [Single.sql] returns a plan exactly when the relation has a
    column for every position holding a variable and at least as many
    columns as there are constants; otherwise it raises [IndexError], and
    it raises nothing else. In particular surplus constants behind the
    last column are accepted as long as their number fits. *)
Theorem Single_sql_raises_iff_out_of_range (rel : Relation) (values : list Arg) :
  ((∃ s, Single_sql rel values = Ok s) ↔ fits rel values) ∧
  (∀ e, Single_sql rel values = Raise e → e = IndexError) ∧
  (¬ fits rel values → Single_sql rel values = Raise IndexError).
Proof.
  split; [|split].
  - split.
    + intros [s Hs]. by eapply Single_sql_Ok_fits.
    + intros Hfits. destruct (Single_sql_shape_fits rel values Hfits)
        as (cs & ws & _ & _ & _ & Hsql). by eexists.
  - apply Single_sql_Raise.
  - intros Hnot. destruct (Single_sql rel values) as [s|e] eqn:Hsql.
    + exfalso. apply Hnot. by eapply Single_sql_Ok_fits.
    + f_equal. by eapply Single_sql_Raise.
Qed.

Lemma Single_sql_raises_iff_out_of_range_witness :
  (∃ s, Single_sql edge [AVar x; AConst (CInt 1); AConst (CInt 2)] = Ok s) ∧
  Single_sql edge [AVar x; AVar y; AVar z] = Raise IndexError.
Proof.
  split.
  - apply (proj1 (Single_sql_raises_iff_out_of_range edge
                    [AVar x; AConst (CInt 1); AConst (CInt 2)])).
    split; [|simpl; lia].
    intros [|[|[|i]]] a; simpl; [lia | done | done | done].
  - apply (proj2 (proj2 (Single_sql_raises_iff_out_of_range edge
                           [AVar x; AVar y; AVar z]))).
    intros [Hvars _]. specialize (Hvars 2 z eq_refl). simpl in Hvars. lia.
Defined.

Section further.
Context {order : SetOrder}.

Lemma sql_Raise q e : sql q = Raise e → e = IndexError.
Proof.
  induction q as [rel values|l IHl r IHr|l IHl r IHr]; simpl.
  - apply Single_sql_Raise.
  - destruct (sql l) as [ls|e'] eqn:Hl; simpl; [|intros [= <-]; by apply IHl].
    destruct (sql r) as [rs|e'] eqn:Hr; simpl; [done|].
    intros [= <-]. by apply IHr.
  - destruct (sql l) as [ls|e'] eqn:Hl; simpl; [|intros [= <-]; by apply IHl].
    destruct (sql r) as [rs|e'] eqn:Hr; simpl; [done|].
    intros [= <-]. by apply IHr.
Qed.

Lemma sql_Ok_iff_fits q : (∃ s, sql q = Ok s) ↔ fits_query q.
Proof.
  induction q as [rel values|l IHl r IHr|l IHl r IHr]; simpl.
  - split.
    + intros [s Hs]. by eapply Single_sql_Ok_fits.
    + intros Hfits. destruct (Single_sql_shape_fits rel values Hfits)
        as (cs & ws & _ & _ & _ & Hsql). by eexists.
  - rewrite <-IHl, <-IHr. split.
    + intros [s H]. inv_bind H. split; by eexists.
    + intros [[ls ->] [rs ->]]. by eexists.
  - rewrite <-IHl, <-IHr. split.
    + intros [s H]. inv_bind H. split; by eexists.
    + intros [[ls ->] [rs ->]]. by eexists.
Qed.

(** X3. Compiling a query tree returns a plan exactly when every
    [Single] in it fits its relation; [And] and [Or] add no failure of
    their own, and the only exception that can escape is [IndexError]. *)
Theorem sql_raises_only_IndexError (q : Query) :
  ((∃ s, sql q = Ok s) ↔ fits_query q) ∧
  (∀ e, sql q = Raise e → e = IndexError) ∧
  (¬ fits_query q → sql q = Raise IndexError).
Proof.
  split; [apply sql_Ok_iff_fits|]. split; [apply sql_Raise|].
  intros Hnot. destruct (sql q) as [s|e] eqn:Hsql.
  - exfalso. apply Hnot, sql_Ok_iff_fits. by eexists.
  - f_equal. by eapply sql_Raise.
Qed.

(** X4. A rule compiles exactly when its head holds only variables bound
    by the body and the body compiles. The head is validated before the
    body is compiled: [IndexError] escapes only for a valid head, and any
    other failure is an [AssertionError]. *)
Theorem Single_le_outcome (rel : Relation) (values : list Arg) (body : Query) :
  ((∃ s, Single_le rel values body = Ok s) ↔
   (∀ b : Arg, b ∈ values → ∃ v, b = AVar v ∧ v ∈ cols body) ∧
   fits_query body) ∧
  (∀ e, Single_le rel values body = Raise e →
        (∃ msg, e = AssertionError msg) ∨
        (e = IndexError ∧ sql body = Raise IndexError ∧
         ∀ b : Arg, b ∈ values → ∃ v, b = AVar v ∧ v ∈ cols body)).
Proof.
  split.
  - split.
    + intros [s Hs]. split; [by eapply Single_le_Ok_head|].
      apply sql_Ok_iff_fits. unfold Single_le in Hs. inv_bind Hs. by eexists.
    + intros [Hhead [bs Hbs]%sql_Ok_iff_fits].
      assert (∀ b : Arg, b ∈ values → is_var b = true) as Hvars.
      { intros b Hb. by destruct (Hhead b Hb) as (v & -> & _). }
      unfold Single_le, py_assert.
      rewrite (proj2 (forallb_is_var values) Hvars). simpl.
      rewrite (mapM_check_bound_Ok _ _ Hhead). simpl.
      rewrite (mapM_arg_name _ Hvars). simpl.
      rewrite Hbs. by eexists.
  - intros e. unfold Single_le, py_assert.
    destruct (forallb is_var values) eqn:Hall; simpl;
      [|intros [= <-]; left; by eexists].
    pose proof (proj1 (forallb_is_var values) Hall) as Hvars. clear Hall.
    destruct (mapM (check_bound (cols body)) values) as [us|e'] eqn:Hcheck; simpl.
    + pose proof (mapM_check_bound_Ok_inv _ _ _ Hcheck) as Hhead.
      rewrite (mapM_arg_name _ Hvars). simpl.
      destruct (sql body) as [bs|e'] eqn:Hbody; simpl; [done|].
      intros [= <-]. right.
      apply sql_Raise in Hbody as Heq. subst e'. done.
    + intros [= <-]. left. apply mapM_Raise in Hcheck as (b & Hb & Hraise).
      destruct b as [v|c]; [|by specialize (Hvars _ Hb)].
      unfold check_bound, py_assert in Hraise.
      case_bool_decide; [done|]. injection Hraise as <-. by eexists.
Qed.

(** X5. [Or(L, R)] over children that compile projects the variables
    common to both children, each once, and uses the same list of names, in
    the same order, for the outer select and for the re-selection of each
    child; its parameters are the left child's followed by the right
    child's. *)
Theorem Or_sql_common_columns (l r : Query) :
  fits_query l → fits_query r →
  ∃ ls rs vs,
    sql l = Ok ls ∧ sql r = Ok rs ∧
    NoDup vs ∧ (∀ v, v ∈ vs ↔ v ∈ cols l ∧ v ∈ cols r) ∧
    sql (Or l r) =
      Ok (Sql.mk
            ("SELECT " ++ join ", " (map Var.name vs) ++ nl
             ++ "FROM ("
             ++ ("SELECT " ++ join ", " (map Var.name vs)
                 ++ " FROM (" ++ Sql.code ls ++ ")")
             ++ nl ++ "UNION ALL "
             ++ ("SELECT " ++ join ", " (map Var.name vs)
                 ++ " FROM (" ++ Sql.code rs ++ ")") ++ ")")
            (Sql.args ls ++ Sql.args rs)).
Proof.
  intros [ls Hls]%sql_Ok_iff_fits [rs Hrs]%sql_Ok_iff_fits.
  exists ls, rs, (set_iter (cols_of (Or l r))).
  split; [done|]. split; [done|]. split; [apply set_iter_NoDup|]. split.
  { intros v. rewrite set_iter_elem_of. simpl. apply elem_of_intersection. }
  simpl. by rewrite Hls, Hrs.
Qed.

(** X6. The projection of [And(L, R)] has one item for each output
    variable of the node, [cols(And(L, R))], and no other: a variable of the
    left child is read from [_t1], also when the right child has it too, and
    every other variable from [_t2]. The filter equates [_t1.c] with [_t2.c]
    for each variable [c] common to both children and is absent when there
    is none. *)
Theorem And_sql_projects_cols (l r : Query) :
  ∃ vs shared,
    NoDup vs ∧ (∀ v, v ∈ vs ↔ v ∈ cols (And l r)) ∧
    NoDup shared ∧ (∀ v, v ∈ shared ↔ v ∈ cols l ∧ v ∈ cols r) ∧
    ∀ ls rs, sql l = Ok ls → sql r = Ok rs →
      sql (And l r) =
        Ok (Sql.mk
              ("SELECT "
               ++ String.concat ", " (map (And_select_of (cols l)) vs)
               ++ "
FROM (" ++ Sql.code ls ++ ") AS _t1,
(" ++ Sql.code rs ++ ") AS _t2"
               ++ (if shared is [] then ""
                   else "
WHERE "
                        ++ String.concat " AND "
                             (map (λ c, "_t1." ++ Var.name c ++ " = _t2."
                                         ++ Var.name c) shared)))
              (Sql.args ls ++ Sql.args rs)).
Proof.
  exists (set_iter (cols_of l)
          ++ filter (λ c, c ∉ cols l) (set_iter (cols_of r)))%list,
         (set_iter (shared_of l r)).
  split.
  { apply NoDup_app. split; [apply set_iter_NoDup|]. split.
    - intros v Hv%set_iter_elem_of [Hnot _]%list_elem_of_filter. done.
    - apply NoDup_filter, set_iter_NoDup. }
  split.
  { intros v.
    rewrite elem_of_app, list_elem_of_filter, !set_iter_elem_of. simpl.
    rewrite elem_of_union. destruct (decide (v ∈ cols l)); tauto. }
  split; [apply set_iter_NoDup|].
  split.
  { intros v. rewrite set_iter_elem_of. simpl. apply elem_of_intersection. }
  intros ls rs Hls Hrs. rewrite (And_sql_text l r ls rs Hls Hrs).
  rewrite map_app.
  assert (∀ a a' b b' : list string, a = a' → b = b' → (a ++ b = a' ++ b')%list)
    as Happ by (by intros ???? -> ->).
  do 3 f_equal. apply (f_equal (λ items, String.concat ", " items +:+ _)).
  apply Happ.
  - apply map_ext_in. intros v Hv%list_elem_of_In%set_iter_elem_of.
    unfold And_select_of. by rewrite decide_True.
  - apply map_ext_in. intros v Hv%list_elem_of_In%list_elem_of_filter.
    unfold And_select_of. rewrite decide_False; [done|]. by destruct Hv.
Qed.

(** X7. [Cursor.select] hands the engine a statement exactly when the
    query compiles, and raises what compilation raises otherwise. The
    requested variables are not checked against the query's output
    variables: whatever they are, the statement selects their names from the
    query's plan and carries the constants of the query as parameters. *)
Theorem Cursor_select_outcome (vars : list Var) (stmt : Query) :
  ((∃ call, Cursor_select vars stmt = Ok call) ↔ fits_query stmt) ∧
  (∀ s, sql stmt = Ok s →
        Cursor_select vars stmt =
          Ok (Sql.mk ("SELECT " ++ join "," (map Var.name vars) ++ nl
                      ++ "FROM (" ++ Sql.code s ++ ")")
                     (constants stmt))) ∧
  (∀ e, sql stmt = Raise e → Cursor_select vars stmt = Raise e).
Proof.
  assert (∀ s, sql stmt = Ok s →
               Cursor_select vars stmt =
                 Ok (Sql.mk ("SELECT " ++ join "," (map Var.name vars) ++ nl
                             ++ "FROM (" ++ Sql.code s ++ ")")
                            (constants stmt))) as HOk.
  { intros s Hs. unfold Cursor_select. rewrite Hs. simpl.
    by rewrite (sql_args_constants _ _ Hs). }
  split; [|split; [exact HOk|]].
  - rewrite <-sql_Ok_iff_fits. split.
    + intros [call H]. unfold Cursor_select in H. inv_bind H. by eexists.
    + intros [s Hs]. rewrite (HOk s Hs). by eexists.
  - intros e He. unfold Cursor_select. by rewrite He.
Qed.

Lemma built_wf q : built q → wf_query q.
Proof.
  induction 1 as [self args kwargs q Hq| |]; simpl; [|done..].
  by eapply Relation_call_wf.
Qed.

(** X8. A query assembled from relation invocations with [&] and [|]
    always compiles: the arity assertion of [Relation.__call__] rules out
    every [IndexError], and the parameters of the plan are the constants
    of the tree from left to right. *)
Theorem built_query_compiles (q : Query) :
  built q → ∃ s, sql q = Ok s ∧ Sql.args s = constants q.
Proof.
  intros [s Hs]%built_wf%sql_total. exists s. split; [done|].
  by apply sql_args_constants.
Qed.

(** ** Duplicate suppression *)

Lemma last_char_app_Some (s t : string) (c : ascii) :
  last_char t = Some c → last_char (s ++ t) = Some c.
Proof.
  intros Ht. induction s as [|c' s IH]; [done|].
  change (String c' s ++ t) with (String c' (s ++ t)).
  revert IH. destruct (s ++ t) as [|c'' u]; [done|].
  intros IH. exact IH.
Qed.

Lemma ends_with_last_char (suffix s : string) (c : ascii) :
  last_char suffix = Some c → ends_with suffix s → last_char s = Some c.
Proof. intros Hc [p ->]. by apply last_char_app_Some. Qed.

(** X9. The statement a compiled rule submits ends in the clause
    [ON CONFLICT DO NOTHING] exactly when the head relation is
    set-typed. *)
Theorem Single_le_conflict_clause (rel : Relation) (values : list Arg)
    (body : Query) (s : Sql) :
  Single_le rel values body = Ok s →
  (ends_with " ON CONFLICT DO NOTHING" (Sql.code s) ↔
   Relation.distinct rel = true).
Proof.
  intros H. unfold Single_le in H. inv_bind H. subst s. simpl.
  destruct (Relation.distinct rel).
  - split; [done|]. intros _. by eexists.
  - split; [|done]. intros Hends.
    apply (ends_with_last_char " ON CONFLICT DO NOTHING" _ "G"%char eq_refl)
      in Hends.
    rewrite (last_char_app_Some _ _ "e"%char) in Hends; [done|].
    do 7 apply last_char_app_Some. reflexivity.
Qed.

End further.

(** ** Instances of the further properties *)

Lemma Or_sql_common_columns_witness :
  ∃ ls rs vs,
    sql (Single edge [AVar x; AVar y]) = Ok ls ∧
    sql (Single path [AVar y; AVar z]) = Ok rs ∧
    (∀ v, v ∈ vs ↔ v ∈ cols (Single edge [AVar x; AVar y])
                   ∧ v ∈ cols (Single path [AVar y; AVar z])) ∧
    sql (Or (Single edge [AVar x; AVar y]) (Single path [AVar y; AVar z])) =
      Ok (Sql.mk
            ("SELECT " ++ join ", " (map Var.name vs) ++ nl
             ++ "FROM ("
             ++ ("SELECT " ++ join ", " (map Var.name vs)
                 ++ " FROM (" ++ Sql.code ls ++ ")")
             ++ nl ++ "UNION ALL "
             ++ ("SELECT " ++ join ", " (map Var.name vs)
                 ++ " FROM (" ++ Sql.code rs ++ ")") ++ ")")
            (Sql.args ls ++ Sql.args rs)).
Proof.
  destruct (Or_sql_common_columns (Single edge [AVar x; AVar y])
                                  (Single path [AVar y; AVar z]))
    as (ls & rs & vs & Hls & Hrs & _ & Hvs & Hsql).
  - split; [|simpl; lia]. intros [|[|i]] a; simpl; [lia | lia | done].
  - split; [|simpl; lia]. intros [|[|i]] a; simpl; [lia | lia | done].
  - exists ls, rs, vs. split; [exact Hls|]. split; [exact Hrs|].
    split; [exact Hvs | exact Hsql].
Defined.

Lemma And_sql_projects_cols_witness :
  sql (And (Single edge [AVar x; AVar y]) (Single edge [AVar y; AVar x])) =
    Ok (Sql.mk "SELECT _t1.y AS y, _t1.x AS x
FROM (SELECT x AS x, y AS y
FROM edge
WHERE true) AS _t1,
(SELECT x AS y, y AS x
FROM edge
WHERE true) AS _t2
WHERE _t1.y = _t2.y AND _t1.x = _t2.x" [])
  ∧ ∃ vs shared ls rs,
      (∀ v, v ∈ vs ↔ v ∈ cols (And (Single edge [AVar x; AVar y])
                                    (Single edge [AVar y; AVar x]))) ∧
      (∀ v, v ∈ shared ↔ v ∈ cols (Single edge [AVar x; AVar y])
                         ∧ v ∈ cols (Single edge [AVar y; AVar x])) ∧
      sql (Single edge [AVar x; AVar y]) = Ok ls ∧
      sql (Single edge [AVar y; AVar x]) = Ok rs ∧
      sql (And (Single edge [AVar x; AVar y]) (Single edge [AVar y; AVar x])) =
        Ok (Sql.mk
              ("SELECT "
               ++ String.concat ", "
                    (map (And_select_of (cols (Single edge [AVar x; AVar y]))) vs)
               ++ "
FROM (" ++ Sql.code ls ++ ") AS _t1,
(" ++ Sql.code rs ++ ") AS _t2"
               ++ (if shared is [] then ""
                   else "
WHERE "
                        ++ String.concat " AND "
                             (map (λ c, "_t1." ++ Var.name c ++ " = _t2."
                                         ++ Var.name c) shared)))
              (Sql.args ls ++ Sql.args rs)).
Proof.
  split; [vm_compute; reflexivity|].
  destruct (And_sql_projects_cols (Single edge [AVar x; AVar y])
                                  (Single edge [AVar y; AVar x]))
    as (vs & shared & _ & Hvs & _ & Hshared & Hsql).
  eexists vs, shared, _, _. split; [exact Hvs|]. split; [exact Hshared|].
  split; [reflexivity|]. split; [reflexivity|].
  apply Hsql; reflexivity.
Defined.

Lemma Cursor_select_outcome_witness :
  Cursor_select [z] (Single edge [AVar x; AConst (CInt 2)]) =
    Ok (Sql.mk ("SELECT " ++ join "," (map Var.name [z]) ++ nl
                ++ "FROM (" ++ ("SELECT x AS x" ++ nl ++ "FROM edge" ++ nl
                                ++ "WHERE x = ?") ++ ")")
               (constants (Single edge [AVar x; AConst (CInt 2)]))).
Proof.
  apply (proj1 (proj2 (Cursor_select_outcome [z]
                         (Single edge [AVar x; AConst (CInt 2)])))
               (Sql.mk ("SELECT x AS x" ++ nl ++ "FROM edge" ++ nl
                        ++ "WHERE x = ?") [CInt 2])).
  reflexivity.
Defined.

Lemma built_query_compiles_witness :
  ∃ s,
    sql (And (Single edge [AConst (CInt 1); AConst (CInt 2)])
             (Or (Single path [AVar x; AConst (CInt 3)])
                 (Single edge [AConst (CInt 4); AVar x]))) = Ok s ∧
    Sql.args s = [CInt 1; CInt 2; CInt 3; CInt 4].
Proof.
  refine (built_query_compiles
            (And (Single edge [AConst (CInt 1); AConst (CInt 2)])
                 (Or (Single path [AVar x; AConst (CInt 3)])
                     (Single edge [AConst (CInt 4); AVar x]))) _).
  apply built_and; [|apply built_or].
  - apply (built_call edge [AConst (CInt 1)] {[ "y" := AConst (CInt 2) ]}).
    reflexivity.
  - apply (built_call path [AVar x; AConst (CInt 3)] ∅). reflexivity.
  - apply (built_call edge [] {[ "y" := AVar x; "x" := AConst (CInt 4) ]}).
    reflexivity.
Defined.

Lemma sql_raises_only_IndexError_witness :
  (∃ s, sql (And (Single edge [AVar x; AVar y])
                 (Single path [AVar y; AVar z])) = Ok s) ∧
  sql (Or (Single edge [AVar x; AVar y])
          (Single path [AVar x; AVar y; AVar z])) = Raise IndexError.
Proof.
  split.
  - apply (proj1 (sql_raises_only_IndexError _)). split.
    + split; [|simpl; lia]. intros [|[|i]] a; simpl; [lia | lia | done].
    + split; [|simpl; lia]. intros [|[|i]] a; simpl; [lia | lia | done].
  - apply (proj2 (proj2 (sql_raises_only_IndexError _))).
    intros [_ [Hvars _]]. specialize (Hvars 2 z eq_refl). simpl in Hvars. lia.
Defined.

Lemma Single_le_outcome_witness :
  ∃ s, Single_le path [AVar x; AVar y] (Single edge [AVar x; AVar y]) = Ok s.
Proof.
  apply (proj1 (Single_le_outcome path [AVar x; AVar y]
                  (Single edge [AVar x; AVar y]))).
  split.
  - intros b Hb. apply elem_of_cons in Hb as [->|Hb].
    { exists x. split; [reflexivity | by_computation]. }
    apply elem_of_cons in Hb as [->|Hb].
    { exists y. split; [reflexivity | by_computation]. }
    by apply elem_of_nil in Hb.
  - split; [|simpl; lia]. intros [|[|i]] a; simpl; [lia | lia | done].
Defined.

Lemma Single_le_conflict_clause_witness :
  ends_with " ON CONFLICT DO NOTHING"
    ("INSERT INTO path" ++ nl ++ "SELECT x,y" ++ nl
     ++ "FROM (SELECT x AS x, y AS y" ++ nl ++ "FROM edge" ++ nl
     ++ "WHERE true) WHERE true ON CONFLICT DO NOTHING").
Proof.
  apply (Single_le_conflict_clause path [AVar x; AVar y]
           (Single edge [AVar x; AVar y])
           (Sql.mk ("INSERT INTO path" ++ nl ++ "SELECT x,y" ++ nl
                    ++ "FROM (SELECT x AS x, y AS y" ++ nl ++ "FROM edge" ++ nl
                    ++ "WHERE true) WHERE true ON CONFLICT DO NOTHING") [])).
  - vm_compute. reflexivity.
  - reflexivity.
Defined.

(** ** Invoking a relation *)

Lemma mapM_kwarg_for_Ok (kwargs : gmap string Arg)
    (l : list (string * string)) (rest : list Arg) :
  mapM (kwarg_for kwargs) l = Ok rest ↔
  Forall2 (λ k (u : Arg), kwargs !! k = Some u) (map fst l) rest.
Proof.
  rewrite mapM_Ok_Forall2. revert rest.
  induction l as [|kv l IH]; intros rest; simpl.
  - split; inversion 1; constructor.
  - split; inversion 1 as [|? b ? bs Hb Hbs]; subst; constructor.
    + unfold kwarg_for in Hb. by destruct (kwargs !! kv.1) as [u|]; simplify_eq.
    + by apply IH.
    + unfold kwarg_for. by rewrite Hb.
    + by apply IH.
Qed.

Lemma Relation_call_unfold self args kwargs :
  Relation_call self args kwargs =
    (_ ← py_assert
           (bool_decide (length args + size kwargs = length (Relation.args self)))
           "Wrong number of arguments";
     rest ← mapM (kwarg_for kwargs) (drop (length args) (Relation.args self));
     mret (Single self (args ++ rest))).
Proof. done. Qed.

(** X10. [Relation.__call__] builds a [Single] exactly when the number of
    positional and keyword arguments is the number of columns and every
    column left open by the positional arguments has a keyword argument.
    The values are then the positional arguments followed by the keyword
    arguments in column order. A wrong count raises the assertion; a
    right count with a missing name raises [KeyError]. *)
Theorem Relation_call_outcome (self : Relation) (args : list Arg)
    (kwargs : gmap string Arg) :
  (length args + size kwargs ≠ length (Relation.args self) →
   Relation_call self args kwargs =
     Raise (AssertionError "Wrong number of arguments")) ∧
  (length args + size kwargs = length (Relation.args self) →
   (∃ k, k ∈ drop (length args) (col_names self) ∧ kwargs !! k = None) →
   Relation_call self args kwargs = Raise KeyError) ∧
  (∀ q, Relation_call self args kwargs = Ok q ↔
        length args + size kwargs = length (Relation.args self) ∧
        ∃ rest,
          Forall2 (λ k (u : Arg), kwargs !! k = Some u)
                  (drop (length args) (col_names self)) rest ∧
          q = Single self (args ++ rest)).
Proof.
  assert (drop (length args) (col_names self) =
          map fst (drop (length args) (Relation.args self))) as Hdrop.
  { unfold col_names. apply skipn_map. }
  rewrite Relation_call_unfold, Hdrop. unfold py_assert.
  split; [|split].
  - intros Hne. by rewrite bool_decide_false.
  - intros Heq (k & Hk & Hnone). rewrite bool_decide_true by done. simpl.
    destruct (mapM (kwarg_for kwargs) (drop (length args) (Relation.args self)))
      as [rest|e] eqn:Hrest; simpl.
    + exfalso. apply mapM_kwarg_for_Ok in Hrest.
      apply list_elem_of_lookup in Hk as [i Hi].
      destruct (Forall2_lookup_l _ _ _ _ _ Hrest Hi) as (u & _ & Hu).
      congruence.
    + f_equal. apply mapM_Raise in Hrest as (kv & _ & Hkv).
      unfold kwarg_for in Hkv. destruct (kwargs !! kv.1); by simplify_eq.
  - intros q. case_bool_decide as Hlen; simpl; cycle 1.
    { split; [done | by intros [? _]]. }
    split.
    + intros H. apply bind_Ok in H as (rest & Hrest & [= <-]).
      split; [done|]. exists rest. split; [|done].
      by apply mapM_kwarg_for_Ok.
    + intros (_ & rest & Hrest & ->).
      apply mapM_kwarg_for_Ok in Hrest. by rewrite Hrest.
Qed.

Lemma Relation_call_outcome_witness :
  Relation_call edge [AVar x] {[ "y" := AConst (CInt 7) ]} =
    Ok (Single edge ([AVar x] ++ [AConst (CInt 7)]))
  ∧ Relation_call edge [AVar x] ∅ =
      Raise (AssertionError "Wrong number of arguments")
  ∧ Relation_call edge [AVar x] {[ "z" := AConst (CInt 7) ]} = Raise KeyError.
Proof.
  split; [|split].
  - apply (proj2 (proj2 (Relation_call_outcome edge [AVar x]
                           {[ "y" := AConst (CInt 7) ]}))).
    split; [reflexivity|]. exists [AConst (CInt 7)]. split; [|reflexivity].
    repeat constructor.
  - apply (proj1 (Relation_call_outcome edge [AVar x] ∅)). by_computation.
  - apply (proj1 (proj2 (Relation_call_outcome edge [AVar x]
                           {[ "z" := AConst (CInt 7) ]}))).
    + reflexivity.
    + exists "y". split; [by_computation | reflexivity].
Defined.

(** X11. When the column names of the relation are distinct, a
    successful invocation uses every keyword argument: the keywords are
    exactly the names of the columns behind the positional arguments, so
    none is dropped unread and none names a column that a positional
    argument already fills. *)
Theorem Relation_call_uses_every_keyword (self : Relation) (args : list Arg)
    (kwargs : gmap string Arg) (q : Query) :
  NoDup (col_names self) →
  Relation_call self args kwargs = Ok q →
  dom kwargs = list_to_set (drop (length args) (col_names self)) ∧
  ∀ k, k ∈ take (length args) (col_names self) → kwargs !! k = None.
Proof.
  intros Hnodup Hq.
  assert (drop (length args) (col_names self) =
          map fst (drop (length args) (Relation.args self))) as Hdrop.
  { unfold col_names. apply skipn_map. }
  rewrite Relation_call_unfold in Hq. unfold py_assert in Hq.
  case_bool_decide as Hlen; [|done]. simpl in Hq.
  apply bind_Ok in Hq as (rest & Hrest & _).
  apply mapM_kwarg_for_Ok in Hrest. rewrite <-Hdrop in Hrest.
  assert (NoDup (drop (length args) (col_names self))) as Hnodup'.
  { apply (sublist_NoDup _ (col_names self)); [done | apply sublist_drop]. }
  assert (dom kwargs = list_to_set (drop (length args) (col_names self)))
    as Hdom.
  { symmetry. apply set_subseteq_size_eq.
    - intros k Hk%elem_of_list_to_set. apply elem_of_dom.
      apply list_elem_of_lookup in Hk as [i Hi].
      destruct (Forall2_lookup_l _ _ _ _ _ Hrest Hi) as (u & _ & Hu).
      by eexists.
    - rewrite size_dom, size_list_to_set by done.
      rewrite length_drop. unfold col_names. rewrite length_map. lia. }
  split; [done|].
  intros k Hk. apply not_elem_of_dom. rewrite Hdom, elem_of_list_to_set.
  intros Hk'. rewrite <-(take_drop (length args) (col_names self)) in Hnodup.
  apply NoDup_app in Hnodup as (_ & Hdisj & _). by apply (Hdisj k).
Qed.

Lemma Relation_call_uses_every_keyword_witness :
  dom ({[ "y" := AConst (CInt 7) ]} : gmap string Arg) =
    list_to_set (drop (length [AVar x]) (col_names edge)).
Proof.
  refine (proj1 (Relation_call_uses_every_keyword edge [AVar x]
                   {[ "y" := AConst (CInt 7) ]}
                   (Single edge [AVar x; AConst (CInt 7)]) _ _)).
  - by_computation.
  - reflexivity.
Defined.

(** ** Column names made by [make_args] *)

Lemma py_str_nat_inj (i j : nat) : py_str_nat i = py_str_nat j → i = j.
Proof.
  unfold py_str_nat. intros Heq.
  apply (f_equal DecimalString.NilEmpty.uint_of_string) in Heq.
  rewrite !DecimalString.NilEmpty.usu in Heq. injection Heq as Heq.
  apply (f_equal Nat.of_uint) in Heq.
  by rewrite !DecimalNat.Unsigned.of_to in Heq.
Qed.

Lemma positional_name_inj (i j : nat) :
  positional_name i = positional_name j → i = j.
Proof. unfold positional_name. intros [= Heq]. by apply py_str_nat_inj. Qed.

Lemma enumerate_from_fst {A : Type} (k : nat) (l : list A) :
  map fst (enumerate_from k l) = seq k (length l).
Proof.
  revert k; induction l as [|b l IH]; intros k; [done|].
  rewrite enumerate_from_cons. simpl. by rewrite IH.
Qed.

Lemma enumerate_from_snd {A : Type} (k : nat) (l : list A) :
  map snd (enumerate_from k l) = l.
Proof.
  revert k; induction l as [|b l IH]; intros k; [done|].
  rewrite enumerate_from_cons. simpl. by rewrite IH.
Qed.

Lemma make_args_names (args : list string) (kwargs : list (string * string)) :
  map fst (make_args args kwargs) =
    (map positional_name (seq 0 (length args)) ++ map fst kwargs)%list.
Proof.
  unfold make_args, enumerate. fold (enumerate_from 0 args).
  rewrite map_app, map_map. simpl. f_equal.
  rewrite <-(enumerate_from_fst 0 args), map_map. done.
Qed.

(** X12. [make_args] keeps the column types in order, positional ones
    first. The positional columns get the names [_x0], [_x1], ..., which
    are pairwise distinct; the named columns keep their names. So the
    column names of the schema are distinct exactly when no keyword is
    itself one of the generated names. *)
Theorem make_args_column_names (args : list string)
    (kwargs : list (string * string)) :
  map snd (make_args args kwargs) = (args ++ map snd kwargs)%list ∧
  map fst (make_args args kwargs) =
    (map positional_name (seq 0 (length args)) ++ map fst kwargs)%list ∧
  NoDup (map positional_name (seq 0 (length args))) ∧
  (NoDup (map fst kwargs) →
   (NoDup (map fst (make_args args kwargs)) ↔
    ∀ i, i < length args → positional_name i ∉ map fst kwargs)).
Proof.
  assert (NoDup (map positional_name (seq 0 (length args)))) as Hpos.
  { apply NoDup_map_inj; [apply positional_name_inj | apply NoDup_seq]. }
  split; [|split; [apply make_args_names|split; [exact Hpos|]]].
  - unfold make_args, enumerate. fold (enumerate_from 0 args).
    rewrite map_app, map_map. simpl. f_equal. apply enumerate_from_snd.
  - intros Hkw. rewrite make_args_names, NoDup_app. split.
    + intros (_ & Hdisj & _) i Hi. apply Hdisj.
      apply list_elem_of_In, in_map_iff. exists i. split; [done|].
      apply list_elem_of_In, elem_of_seq. lia.
    + intros Hfresh. split; [done|]. split; [|done].
      intros k Hk. apply list_elem_of_In, in_map_iff in Hk as (i & <- & Hi).
      apply list_elem_of_In, elem_of_seq in Hi. apply Hfresh. lia.
Qed.

Lemma make_args_column_names_witness :
  NoDup (col_names (Cursor_RelationSet "t" ["INT"; "TEXT"] [("w", "INT")]))
  ∧ col_names (Cursor_RelationSet "t" ["INT"; "TEXT"] [("w", "INT")]) =
      ["_x0"; "_x1"; "w"].
Proof.
  split; [|reflexivity].
  apply (proj2 (proj2 (proj2 (make_args_column_names ["INT"; "TEXT"]
                                [("w", "INT")])))).
  - repeat constructor; by_computation.
  - intros i Hi. by_computation.
Defined.

(** ** Row insertion: [Relation.insert_sql] *)

Lemma count_char_app (c : ascii) (s t : string) :
  count_char c (s ++ t) = count_char c s + count_char c t.
Proof. induction s as [|c' s IH]; simpl; [done|]. rewrite IH. lia. Qed.

Lemma count_char_placeholders {A : Type} (l : list A) :
  count_char "?" (join ", " (map (λ _, "?") l)) = length l.
Proof.
  induction l as [|x l IH]; [done|].
  destruct l as [|y l]; [done|].
  change (join ", " (map (λ _, "?") (x :: y :: l)))
    with ("?" ++ ", " ++ join ", " (map (λ _ : A, "?") (y :: l))).
  rewrite !count_char_app, IH. done.
Qed.

(** X13. The insert statement of a relation has one placeholder per
    column: the number of question marks in its text is the number of
    columns, added to the question marks the relation's own name holds. *)
Theorem insert_sql_placeholders (self : Relation) :
  count_char "?" (insert_sql self) =
    count_char "?" (Relation.name self) + length (Relation.args self).
Proof.
  unfold insert_sql. destruct (Relation.distinct self);
    rewrite !count_char_app, count_char_placeholders; simpl; lia.
Qed.

(** X14. The insert statement of a relation ends in the clause
    [ON CONFLICT DO NOTHING] exactly when the relation is set-typed. *)
Theorem insert_sql_conflict_clause (self : Relation) :
  ends_with " ON CONFLICT DO NOTHING" (insert_sql self) ↔
  Relation.distinct self = true.
Proof.
  unfold insert_sql. destruct (Relation.distinct self).
  - split; [done|]. intros _. by eexists.
  - split; [|done]. intros Hends.
    apply (ends_with_last_char " ON CONFLICT DO NOTHING" _ "G"%char eq_refl)
      in Hends.
    rewrite (last_char_app_Some _ _ ")"%char) in Hends; [done|].
    do 3 apply last_char_app_Some. reflexivity.
Qed.

(** ** An atom over distinct variables *)

Lemma filter_all {A : Type} (P : A → Prop) `{∀ x, Decision (P x)} (l : list A) :
  Forall P l → filter P l = l.
Proof.
  induction 1 as [|x l Hx _ IH]; [done|].
  by rewrite filter_cons, decide_True, IH.
Qed.

Lemma first_occurrences_NoDup_id (vs : list Var) :
  NoDup vs → first_occurrences vs = vs.
Proof.
  induction 1 as [|v vs Hv _ IH]; simpl; [done|].
  rewrite IH. f_equal. apply filter_all, Forall_forall.
  intros w Hw ->. done.
Qed.

Lemma omap_var_of_AVar (vs : list Var) : omap var_of (map AVar vs) = vs.
Proof.
  induction vs as [|v vs IH]; [done|].
  change (omap var_of (map AVar (v :: vs)))
    with (v :: omap var_of (map AVar vs)).
  by rewrite IH.
Qed.

Lemma value_args_AVar (vs : list Var) : value_args (map AVar vs) = [].
Proof. unfold value_args. induction vs as [|v vs IH]; [done|]. exact IH. Qed.

Lemma lookup_map {A B : Type} (f : A → B) (l : list A) (i : nat) :
  map f l !! i = f <$> l !! i.
Proof.
  revert i; induction l as [|x l IH]; intros [|i]; simpl; done.
Qed.

Lemma lookup_map_AVar (vs : list Var) (i : nat) :
  map AVar vs !! i = AVar <$> vs !! i.
Proof. apply lookup_map. Qed.

Lemma minArg_NoDup (vs : list Var) (i : nat) (v : Var) :
  NoDup vs → vs !! i = Some v → minArg (map AVar vs) v = Some i.
Proof.
  intros Hnodup Hi. apply minArg_Some. split.
  - by rewrite lookup_map_AVar, Hi.
  - intros j Hj. rewrite lookup_map_AVar.
    destruct (vs !! j) as [w|] eqn:Hw; [|done]. simpl. intros [= ->].
    pose proof (NoDup_lookup _ _ _ _ Hnodup Hw Hi). lia.
Qed.

Lemma unify_positions_NoDup (vs : list Var) :
  NoDup vs → unify_positions (map AVar vs) = [].
Proof.
  intros Hnodup. unfold unify_positions. apply filter_none, Forall_forall.
  intros i _. unfold is_repeat. rewrite lookup_map_AVar.
  destruct (vs !! i) as [v|] eqn:Hi; simpl; [|tauto].
  rewrite (minArg_NoDup vs i v Hnodup Hi).
  rewrite bool_decide_false; [tauto | by intros ?].
Qed.

Lemma select_items_NoDup (cn : list string) (vs : list Var) (cs : list string) :
  NoDup vs →
  Forall2 (select_item cn) (map (with_first_index (map AVar vs)) vs) cs →
  cs = zip_with (λ c v, c ++ " AS " ++ Var.name v) cn vs.
Proof.
  intros Hnodup Hcs. apply list_eq. intros i.
  rewrite lookup_zip_with.
  destruct (vs !! i) as [v|] eqn:Hv.
  - assert (map (with_first_index (map AVar vs)) vs !! i = Some (v, i)) as Hd.
    { rewrite lookup_map, Hv. simpl. unfold with_first_index, first_index.
      by rewrite (minArg_NoDup vs i v Hnodup Hv). }
    destruct (Forall2_lookup_l _ _ _ _ _ Hcs Hd) as (w & Hw & cj & Hcj & ->).
    simpl in Hcj, Hw. by rewrite Hw, Hcj.
  - assert (cs !! i = None) as ->.
    { apply lookup_ge_None. apply Forall2_length in Hcs.
      rewrite length_map in Hcs. rewrite <-Hcs. by apply lookup_ge_None. }
    by destruct (cn !! i).
Qed.

(** X15. An atom whose arguments are pairwise distinct variables, one per
    column, compiles to a plain renaming of the table: it projects every
    column, in column order, under the name of the variable at that
    position, filters with [true] and binds no parameter. *)
Theorem Single_sql_distinct_variables (rel : Relation) (vs : list Var) :
  NoDup vs →
  length vs = length (Relation.args rel) →
  Single_sql rel (map AVar vs) =
    Ok (Sql.mk
          ("SELECT "
           ++ (if vs is [] then "NULL"
               else join ", " (zip_with (λ c v, c ++ " AS " ++ Var.name v)
                                        (col_names rel) vs))
           ++ nl ++ "FROM " ++ Relation.name rel ++ nl ++ "WHERE true")
          []).
Proof.
  intros Hnodup Hlen.
  destruct (Single_sql_shape_fits rel (map AVar vs)) as (cs & ws & _ & Hcs & Hws & ->).
  { split.
    - intros i a Hi%lookup_lt_Some. rewrite length_map in Hi. lia.
    - rewrite value_args_AVar. simpl. lia. }
  cbn zeta in *.
  rewrite omap_var_of_AVar, (first_occurrences_NoDup_id vs Hnodup) in *.
  rewrite (unify_positions_NoDup vs Hnodup) in Hws.
  apply Forall2_nil_inv_l in Hws as ->.
  rewrite value_args_AVar. simpl.
  apply (select_items_NoDup _ _ _ Hnodup) in Hcs as ->.
  by destruct vs.
Qed.

Lemma Single_sql_distinct_variables_witness :
  Single_sql edge (map AVar [x; y]) =
    Ok (Sql.mk ("SELECT " ++ "x AS x, y AS y" ++ nl ++ "FROM edge" ++ nl
                ++ "WHERE true") []).
Proof.
  apply (Single_sql_distinct_variables edge [x; y]).
  - repeat constructor; by_computation.
  - reflexivity.
Defined.

(** ** How many conditions a [Single] has *)

Lemma minArg_app_old values (b : Arg) a :
  AVar a ∈ values → minArg (values ++ [b]) a = minArg values a.
Proof.
  intros [m Hm]%minArg_is_Some. rewrite Hm.
  apply minArg_Some in Hm as [Hm Hmin]. apply minArg_Some. split.
  - by apply lookup_app_l_Some.
  - intros j Hj. rewrite lookup_app_l by (apply lookup_lt_Some in Hm; lia).
    by apply Hmin.
Qed.

Lemma minArg_app_new values a :
  AVar a ∉ values → minArg (values ++ [AVar a]) a = Some (length values).
Proof.
  intros Hnew. apply minArg_Some. split.
  - by rewrite list_lookup_middle.
  - intros j Hj. rewrite lookup_app_l by done. intros Hin.
    by apply list_elem_of_lookup_2 in Hin.
Qed.

Lemma is_repeat_app_old values (b : Arg) (i : nat) :
  i < length values → is_repeat (values ++ [b]) i = is_repeat values i.
Proof.
  intros Hi. unfold is_repeat. rewrite lookup_app_l by done.
  destruct (values !! i) as [[a|c]|] eqn:Hv; [|done..].
  rewrite minArg_app_old; [done|]. by eapply list_elem_of_lookup_2.
Qed.

Lemma filter_ext_in {A : Type} (P Q : A → Prop) `{∀ x, Decision (P x)}
    `{∀ x, Decision (Q x)} (l : list A) :
  (∀ x, x ∈ l → (P x ↔ Q x)) → filter P l = filter Q l.
Proof.
  induction l as [|x l IH]; intros Hext; [done|].
  rewrite !filter_cons. rewrite IH by (intros y Hy; apply Hext; by right).
  destruct (decide (P x)) as [HP|HP], (decide (Q x)) as [HQ|HQ]; try done.
  - exfalso. apply HQ, (Hext x); [by left | done].
  - exfalso. apply HP, (Hext x); [by left | done].
Qed.

Lemma unify_positions_app values (b : Arg) :
  unify_positions (values ++ [b]) =
    (unify_positions values
     ++ if is_repeat (values ++ [b]) (length values) then [length values]
        else [])%list.
Proof.
  unfold unify_positions. rewrite length_app. simpl.
  rewrite Nat.add_1_r, seq_S, filter_app. simpl. f_equal.
  - apply filter_ext_in. intros i Hi%elem_of_seq.
    rewrite is_repeat_app_old by lia. done.
  - rewrite filter_cons, filter_nil.
    by destruct (is_repeat (values ++ [b]) (length values)).
Qed.

(** Each position holding a variable is either the first occurrence of
    its variable or gets a unification condition. *)
Lemma unify_positions_count values :
  length (unify_positions values) + size (Single_cols values) =
    length (omap var_of values).
Proof.
  induction values as [|b values IH] using rev_ind; [done|].
  rewrite unify_positions_app, length_app. unfold Single_cols in *.
  rewrite omap_app, list_to_set_app_L, length_app.
  unfold is_repeat. rewrite list_lookup_middle by done.
  destruct b as [a|c]; simpl; cycle 1.
  { rewrite union_empty_r_L. lia. }
  rewrite union_empty_r_L.
  destruct (decide (AVar a ∈ values)) as [Hold|Hnew].
  - rewrite minArg_app_old by done.
    destruct (minArg_is_Some values a Hold) as [m Hm]. rewrite Hm.
    rewrite bool_decide_true
      by (apply minArg_lt in Hm; intros [= ->]; lia).
    simpl. rewrite (comm_L (∪)), (subseteq_union_1_L {[a]}); [lia|].
    apply singleton_subseteq_l, elem_of_list_to_set. by apply elem_of_vars.
  - rewrite minArg_app_new by done.
    rewrite bool_decide_false by (by intros ?). simpl.
    rewrite size_union, size_singleton; [lia|].
    apply disjoint_singleton_r. rewrite elem_of_list_to_set, elem_of_vars. done.
Qed.

Lemma length_vars_consts values :
  length (omap var_of values) + length (value_args values) = length values.
Proof.
  unfold value_args, omap.
  induction values as [|[v|c] values IH]; simpl; lia.
Qed.

(** X16. Every argument position of a [Single] that is not the first
    occurrence of a variable contributes exactly one condition to the
    filter: the filter joins the unification conditions [ws], one per
    repeated position, and the placeholder conditions [cws], one per
    constant, and the number of conditions and the number of output
    variables add up to the number of arguments. *)
Theorem Single_sql_condition_count (rel : Relation) (values : list Arg) :
  fits rel values →
  ∃ cs ws cws,
    Forall2 (select_item (map fst (Relation.args rel)))
            (map (with_first_index values)
                 (first_occurrences (omap var_of values))) cs ∧
    Forall2 (unify_cond (map fst (Relation.args rel)) values)
            (unify_positions values) ws ∧
    cws = map (λ c, c ++ " = ?")
              (take (length (arg_constants values))
                    (map fst (Relation.args rel))) ∧
    Single_sql rel values =
      Ok (Sql.mk
            ("SELECT " ++ (if cs is [] then "NULL" else String.concat ", " cs)
             ++ "
FROM " ++ Relation.name rel ++ "
WHERE " ++ (if (ws ++ cws)%list is [] then "true"
            else String.concat " AND " (ws ++ cws)))
            (arg_constants values)) ∧
    length (ws ++ cws) + size (cols (Single rel values)) = length values.
Proof.
  intros Hfits.
  destruct (Single_sql_shape_fits rel values Hfits)
    as (cs & ws & _ & Hcs & Hws & Hsql).
  cbn zeta in Hcs, Hsql.
  exists cs, ws, (map (λ c, c ++ " = ?")
                   (take (length (arg_constants values))
                         (map fst (Relation.args rel)))).
  split; [exact Hcs|]. split; [exact Hws|]. split; [done|]. split.
  { rewrite Hsql, Single_sql_text, value_args_in_order. do 4 f_equal.
    apply Forall2_length in Hcs.
    destruct (map _ _) as [|p d], cs as [|c cs]; done. }
  simpl. rewrite length_app, length_map, length_take.
  apply Forall2_length in Hws. rewrite <-Hws.
  destruct Hfits as [_ Hconsts]. rewrite value_args_in_order in Hconsts.
  rewrite length_map.
  pose proof (unify_positions_count values).
  pose proof (length_vars_consts values) as Hsum.
  rewrite value_args_in_order in Hsum. lia.
Qed.

Lemma Single_sql_condition_count_witness :
  ∃ ws cws : list string,
    ws = ["y = x"] ∧ cws = [] ∧
    Single_sql path [AVar z; AVar z] =
      Ok (Sql.mk "SELECT x AS z
FROM path
WHERE y = x" []) ∧
    length (ws ++ cws) + size (cols (Single path [AVar z; AVar z])) =
      length [AVar z; AVar z].
Proof.
  destruct (Single_sql_condition_count path [AVar z; AVar z])
    as (cs & ws & cws & Hcs & Hws & Hcws & Hsql & Hcount).
  { split; [|simpl; lia]. intros [|[|i]] a; simpl; [lia | lia | done]. }
  exists ws, cws. rewrite Hsql. clear Hsql.
  split; [|split; [exact Hcws|split; [|exact Hcount]]]; clear Hcount.
  - change (unify_positions [AVar z; AVar z]) with [1] in Hws.
    inversion Hws as [|i w l ws' (a & m & ci & cm & Hi & Hm & _ & Hci & Hcm & Hw)
                        Hws' Hp Hc]. subst.
    inversion Hws'. subst.
    vm_compute in Hi. injection Hi as <-.
    vm_compute in Hm. injection Hm as <-.
    vm_compute in Hci. injection Hci as <-.
    vm_compute in Hcm. injection Hcm as <-.
    reflexivity.
  - subst cws.
    change (map (with_first_index [AVar z; AVar z])
                (first_occurrences (omap var_of [AVar z; AVar z])))
      with [(z, 0)] in Hcs.
    inversion Hcs as [|p w d' cs' (cj & Hcj & Hw) Hcs' Hp Hc]. subst.
    inversion Hcs'. subst.
    vm_compute in Hcj. injection Hcj as <-.
    change (unify_positions [AVar z; AVar z]) with [1] in Hws.
    inversion Hws as [|i w l ws' (a & m & ci & cm & Hi & Hm & _ & Hci & Hcm & Hw)
                        Hws' Hp Hc]. subst.
    inversion Hws'. subst.
    vm_compute in Hi. injection Hi as <-.
    vm_compute in Hm. injection Hm as <-.
    vm_compute in Hci. injection Hci as <-.
    vm_compute in Hcm. injection Hcm as <-.
    reflexivity.
Defined.

(** ** Placeholders and parameters *)

Lemma count_join (sep : string) (l : list string) :
  no_placeholder sep →
  count_char "?" (join sep l) = sum_list_with (count_char "?") l.
Proof.
  intros Hsep. induction l as [|w l IH]; [done|].
  destruct l as [|w' l]; [simpl; lia|].
  change (join sep (w :: w' :: l)) with (w ++ sep ++ join sep (w' :: l)).
  rewrite !count_char_app, IH, Hsep. simpl. lia.
Qed.

Lemma sum_no_placeholder (l : list string) :
  Forall no_placeholder l → sum_list_with (count_char "?") l = 0.
Proof. induction 1 as [|w l Hw _ IH]; simpl; [done|]. rewrite Hw, IH. done. Qed.

Lemma join_no_placeholder (sep : string) (l : list string) :
  no_placeholder sep → Forall no_placeholder l → no_placeholder (join sep l).
Proof.
  intros Hsep Hl. unfold no_placeholder.
  by rewrite count_join, sum_no_placeholder.
Qed.

Lemma count_where_text (l : list string) :
  count_char "?" (where_text l) = sum_list_with (count_char "?") l.
Proof.
  unfold where_text. rewrite count_char_app.
  destruct l as [|w l]; [done|].
  rewrite bool_decide_true by (simpl; lia). by rewrite count_join.
Qed.

Lemma sum_placeholder_conditions (l : list string) :
  Forall no_placeholder l →
  sum_list_with (count_char "?") (map (λ c, c ++ " = ?") l) = length l.
Proof.
  induction 1 as [|w l Hw _ IH]; simpl; [done|].
  rewrite count_char_app, Hw, IH. done.
Qed.

Lemma Forall_lookup_clean (l : list string) (i : nat) (w : string) :
  Forall no_placeholder l → l !! i = Some w → no_placeholder w.
Proof. intros Hl Hi. by eapply (Forall_lookup_1 no_placeholder l). Qed.

Lemma Single_sql_placeholders rel values s :
  clean_relation rel → Forall clean_arg values →
  Single_sql rel values = Ok s →
  count_char "?" (Sql.code s) = length (Sql.args s).
Proof.
  intros [Hname Hcols] Hvalues Hs.
  pose proof (Single_sql_Ok_fits _ _ _ Hs) as Hfits.
  destruct (Single_sql_shape_fits rel values Hfits)
    as (cs & ws & Hd & Hcs & Hws & Hsql).
  cbn zeta in *. rewrite Hsql in Hs. injection Hs as <-. simpl.
  assert (∀ v, AVar v ∈ values → no_placeholder (Var.name v)) as Hvar.
  { intros v Hv. rewrite Forall_forall in Hvalues. by apply (Hvalues (AVar v)). }
  assert (Forall no_placeholder cs) as Hcs'.
  { apply Forall_forall. intros w Hw.
    apply list_elem_of_lookup in Hw as [i Hi].
    destruct (Forall2_lookup_r _ _ _ _ _ Hcs Hi) as ([v j] & Hvj & cj & Hcj & ->).
    simpl in *. unfold no_placeholder. rewrite !count_char_app.
    rewrite (Forall_lookup_clean _ _ _ Hcols Hcj). simpl.
    apply Hvar. apply list_elem_of_lookup_2 in Hvj.
    apply list_elem_of_In, in_map_iff in Hvj as (v' & [= -> _] & Hv').
    by apply list_elem_of_In, elem_of_first_occurrences, elem_of_vars in Hv'. }
  assert (Forall no_placeholder ws) as Hws'.
  { apply Forall_forall. intros w Hw.
    apply list_elem_of_lookup in Hw as [i Hi].
    destruct (Forall2_lookup_r _ _ _ _ _ Hws Hi)
      as (p & _ & a & m & ci & cm & _ & _ & _ & Hci & Hcm & ->).
    unfold no_placeholder. rewrite !count_char_app.
    rewrite (Forall_lookup_clean _ _ _ Hcols Hci).
    by rewrite (Forall_lookup_clean _ _ _ Hcols Hcm). }
  rewrite !count_char_app, count_where_text, sum_list_with_app.
  rewrite (sum_no_placeholder ws Hws'), Hname.
  rewrite sum_placeholder_conditions by (by apply Forall_take).
  rewrite length_take. destruct Hfits as [_ Hconsts].
  assert (length (col_names rel) = length (Relation.args rel)) as ->.
  { unfold col_names. by rewrite length_map. }
  simpl.
  assert (count_char "?" (if map (with_first_index values)
                               (first_occurrences (omap var_of values)) is []
                          then "NULL" else join ", " cs) = 0) as ->.
  { destruct (map _ _); [done|]. by apply join_no_placeholder. }
  lia.
Qed.

Lemma cols_clean q v : clean_query q → v ∈ cols q → no_placeholder (Var.name v).
Proof.
  induction q as [rel values|l IHl r IHr|l IHl r IHr]; simpl.
  - intros [_ Hvalues] Hv. unfold Single_cols in Hv.
    apply elem_of_list_to_set, elem_of_vars in Hv.
    rewrite Forall_forall in Hvalues. by apply (Hvalues (AVar v)).
  - intros [Hl Hr] [Hv|Hv]%elem_of_union; [by apply IHl | by apply IHr].
  - intros [Hl Hr] [Hv _]%elem_of_intersection. by apply IHl.
Qed.

Section placeholders.
Context {order : SetOrder}.

Lemma Forall_map_clean (f : Var → string) (vs : list Var) :
  (∀ v, v ∈ vs → no_placeholder (f v)) → Forall no_placeholder (map f vs).
Proof.
  intros Hf. apply Forall_forall. intros w Hw.
  apply list_elem_of_In, in_map_iff in Hw as (v & <- & Hv).
  by apply Hf, list_elem_of_In.
Qed.

Lemma sql_placeholders q s :
  clean_query q → sql q = Ok s →
  count_char "?" (Sql.code s) = length (Sql.args s).
Proof.
  revert s; induction q as [rel values|l IHl r IHr|l IHl r IHr]; intros s; simpl.
  - intros [Hrel Hvalues]. by apply Single_sql_placeholders.
  - intros [Hl Hr] H. inv_bind H. subst s. simpl.
    rewrite !count_char_app, (IHl _ Hl Ha), (IHr _ Hr Ha0), length_app.
    assert (no_placeholder (join ", " (And_selects l r))) as ->.
    { apply join_no_placeholder; [done|]. unfold And_selects.
      apply Forall_app. split; apply Forall_map_clean.
      - intros v Hv%set_iter_elem_of. unfold no_placeholder, left_select.
        rewrite !count_char_app, (cols_clean l v Hl Hv). done.
      - intros v [_ Hv%set_iter_elem_of]%list_elem_of_filter.
        unfold no_placeholder, right_select.
        rewrite !count_char_app, (cols_clean r v Hr Hv). done. }
    assert (no_placeholder (And_on_clause l r)) as ->.
    { assert (no_placeholder (join " AND " (And_on_conds l r)))
        as Hjoin.
      { apply join_no_placeholder; [done|]. apply Forall_map_clean.
        intros v [Hv _]%set_iter_elem_of%elem_of_intersection.
        unfold no_placeholder, join_cond.
        rewrite !count_char_app, (cols_clean l v Hl Hv). done. }
      unfold And_on_clause. cbn zeta. case_bool_decide; [|done].
      unfold no_placeholder. rewrite !count_char_app, Hjoin. done. }
    simpl. lia.
  - intros [Hl Hr] H. inv_bind H. subst s. simpl.
    rewrite !count_char_app, (IHl _ Hl Ha), (IHr _ Hr Ha0), length_app.
    assert (no_placeholder (Or_names (Or l r))) as ->.
    { apply join_no_placeholder; [done|]. apply Forall_map_clean.
      intros v [Hv _]%set_iter_elem_of%elem_of_intersection.
      by apply (cols_clean l). }
    simpl. lia.
Qed.

(** X17. In every compiled plan the number of placeholders in the text
    is the number of bound parameters, provided the names of the
    relations, columns and variables hold no question mark themselves. *)
Theorem sql_placeholders_match_params (q : Query) (s : Sql) :
  clean_query q →
  sql q = Ok s →
  count_char "?" (Sql.code s) = length (Sql.args s) ∧
  length (Sql.args s) = length (constants q).
Proof.
  intros Hclean Hs. split; [by apply (sql_placeholders q)|].
  by rewrite (sql_args_constants _ _ Hs).
Qed.


End placeholders.

Lemma sql_placeholders_match_params_witness :
  ∃ s,
    sql (And (Single edge [AVar x; AConst (CInt 1)])
             (Single path [AConst (CInt 2); AVar y])) = Ok s ∧
    count_char "?" (Sql.code s) = length (Sql.args s).
Proof.
  destruct (sql (And (Single edge [AVar x; AConst (CInt 1)])
                     (Single path [AConst (CInt 2); AVar y])))
    as [s|e] eqn:Hs; [|by vm_compute in Hs].
  exists s. split; [reflexivity|].
  refine (proj1 (sql_placeholders_match_params _ s _ Hs)).
  repeat split; repeat constructor.
Defined.

